(** * pump19: command recognition, routing and rate limiting

    A shallow embedding of [command.py]: the command table [CMD_REGEX],
    the [Limiter] decorator, the [CommandRouter], the dispatcher
    [handle_privmsg] and the command handlers, followed by the properties
    of the command layer that were checked against it. *)

From Stdlib Require Import ZArith NArith QArith Lqa List String Ascii Bool Lia.
From Stdlib Require Import DecimalString.
Import ListNotations.

Set Implicit Arguments.
Local Close Scope Q_scope.
Local Open Scope string_scope.
Local Open Scope list_scope.

(** ** Python strings

    A Python [str] is a sequence of Unicode code points.  The patterns of
    the command table contain characters outside ASCII, so text is kept as
    a list of code points and not as a byte string. *)

Definition codepoint := N.
Definition pystr := list codepoint.

(** An ASCII literal of the source, as a [pystr]. *)
Definition u (s : string) : pystr := map N_of_ascii (list_ascii_of_string s).

Definition pystr_eqb (a b : pystr) : bool :=
  if list_eq_dec N.eq_dec a b then true else false.

(** [str(n)] for an integer. *)
Definition str_of_Z (z : Z) : pystr := u (NilZero.string_of_int (Z.to_int z)).

(** ** Python values and exceptions

    What the collaborators hand back is loosely structured data: [None],
    booleans, integers, strings, lists and string-keyed dictionaries. *)

Unset Elimination Schemes.
Inductive pyval :=
| VNone
| VBool (b : bool)
| VInt (z : Z)
| VStr (s : pystr)
| VList (l : list pyval)
| VDict (d : list (pystr * pyval)).
Set Elimination Schemes.

Inductive exn :=
| TypeError
| KeyError
| IndexError
| AttributeError
| TimeoutError
| Failure (what : string).

Inductive result (A : Type) :=
| Ok (a : A)
| Raise (e : exn).
Arguments Ok {A} a.
Arguments Raise {A} e.

(** The parts of the interpreter that [command.py] relies on and that are
    tables of the Unicode database or built-in printers: which code points
    beyond ASCII are word characters and decimal digits, and how a
    container value is printed. *)
Record runtime := {
  uni_word : codepoint -> bool;
  uni_digit : codepoint -> bool;
  container_repr : pyval -> pystr
}.

(** [bool(v)] *)
Definition truthy (v : pyval) : bool :=
  match v with
  | VNone => false
  | VBool b => b
  | VInt z => negb (z =? 0)%Z
  | VStr s => match s with [] => false | _ => true end
  | VList l => match l with [] => false | _ => true end
  | VDict d => match d with [] => false | _ => true end
  end.

(** [str(v)], as [str.format] applies it to a replacement field. *)
Definition py_str (rt : runtime) (v : pyval) : pystr :=
  match v with
  | VNone => u "None"
  | VBool true => u "True"
  | VBool false => u "False"
  | VInt z => str_of_Z z
  | VStr s => s
  | VList _ | VDict _ => container_repr rt v
  end.

Fixpoint assoc (key : pystr) (d : list (pystr * pyval)) : option pyval :=
  match d with
  | [] => None
  | (k, v) :: d' => if pystr_eqb k key then Some v else assoc key d'
  end.

(** [v[key]] for a string key: a dictionary without the key raises
    [KeyError]; strings and lists want integer indices, and the other
    values are not subscriptable: [TypeError]. *)
Definition getitem (v : pyval) (key : pystr) : result pyval :=
  match v with
  | VDict d =>
      match assoc key d with
      | Some x => Ok x
      | None => Raise KeyError
      end
  | _ => Raise TypeError
  end.

(** [v.get(key)]: only a dictionary has the method. *)
Definition dict_get (v : pyval) (key : pystr) : result pyval :=
  match v with
  | VDict d =>
      match assoc key d with
      | Some x => Ok x
      | None => Ok VNone
      end
  | _ => Raise AttributeError
  end.

(** ** Regular expressions

    The fragment of Python's [re] syntax used by [CMD_REGEX], with the
    matching order of the backtracking engine. *)
Module Re.

(** [\w] and [\d]; the flag says whether [re.ASCII] is in force. *)
Inductive cclass :=
| Word (ascii_only : bool)
| Digit (ascii_only : bool).

Inductive regex :=
| Bol                                 (* ^ *)
| Eol                                 (* $ *)
| Lit (s : pystr)                     (* literal text *)
| Alt (a b : regex)                   (* a|b *)
| Seq (a b : regex)                   (* ab *)
| Opt (a : regex)                     (* (?:a)? *)
| Plus (c : cclass)                   (* c+ *)
| Group (name : string) (a : regex).  (* (?P<name>a) *)

Definition in_range (lo hi c : N) : bool := (lo <=? c)%N && (c <=? hi)%N.

Definition ascii_digit (c : codepoint) : bool := in_range 48 57 c.

Definition ascii_word (c : codepoint) : bool :=
  in_range 97 122 c || in_range 65 90 c || ascii_digit c || (c =? 95)%N.

Definition in_class (rt : runtime) (k : cclass) (c : codepoint) : bool :=
  match k with
  | Word ao =>
      if (c <? 128)%N then ascii_word c else negb ao && uni_word rt c
  | Digit ao =>
      if (c <? 128)%N then ascii_digit c else negb ao && uni_digit rt c
  end.

(** Groups captured so far, most recent first. *)
Definition captures := list (string * pystr).

(** What remains to be matched after a sub-pattern: the position reached,
    the rest of the subject and the captures. *)
Definition cont := nat -> pystr -> captures -> option captures.

(** [lit_prefix l s] is the rest of [s] after the literal [l]. *)
Fixpoint lit_prefix (l s : pystr) : option pystr :=
  match l, s with
  | [], _ => Some s
  | _ :: _, [] => None
  | a :: l', b :: s' => if (a =? b)%N then lit_prefix l' s' else None
  end.

(** Greedy repetition of a character class: take as many characters as
    match, and give them back one at a time when the rest fails. *)
Fixpoint star_class (p : codepoint -> bool) (pos : nat) (s : pystr)
         (g : captures) (k : cont) : option captures :=
  match s with
  | c :: s' =>
      if p c then
        match star_class p (S pos) s' g k with
        | Some r => Some r
        | None => k pos s g
        end
      else k pos s g
  | [] => k pos s g
  end.

Definition plus_class (p : codepoint -> bool) (pos : nat) (s : pystr)
           (g : captures) (k : cont) : option captures :=
  match s with
  | c :: s' => if p c then star_class p (S pos) s' g k else None
  | [] => None
  end.

(** Without [re.MULTILINE], [$] holds at the end of the subject and just
    before a newline that ends it. *)
Definition at_eol (s : pystr) : bool :=
  match s with
  | [] => true
  | [c] => (c =? 10)%N
  | _ => false
  end.

Fixpoint run (rt : runtime) (r : regex) (pos : nat) (s : pystr)
         (g : captures) (k : cont) : option captures :=
  match r with
  | Bol => if Nat.eqb pos 0 then k pos s g else None
  | Eol => if at_eol s then k pos s g else None
  | Lit l =>
      match lit_prefix l s with
      | Some s' => k (pos + List.length l) s' g
      | None => None
      end
  | Alt a b =>
      match run rt a pos s g k with
      | Some r' => Some r'
      | None => run rt b pos s g k
      end
  | Seq a b => run rt a pos s g (fun pos' s' g' => run rt b pos' s' g' k)
  | Opt a =>
      match run rt a pos s g k with
      | Some r' => Some r'
      | None => k pos s g
      end
  | Plus c => plus_class (in_class rt c) pos s g k
  | Group name a =>
      run rt a pos s g
          (fun pos' s' g' => k pos' s' ((name, firstn (pos' - pos) s) :: g'))
  end.

(** The named groups of a pattern, in the order of their opening. *)
Fixpoint group_names (r : regex) : list string :=
  match r with
  | Bol | Eol | Lit _ | Plus _ => []
  | Alt a b | Seq a b => group_names a ++ group_names b
  | Opt a => group_names a
  | Group name a => name :: group_names a
  end.

Fixpoint capture (name : string) (g : captures) : option pystr :=
  match g with
  | [] => None
  | (n, v) :: g' => if String.eqb n name then Some v else capture name g'
  end.

(** [match.groupdict()]: every named group of the pattern, with [None] for
    a group that took no part in the match. *)
Definition groupdict := list (string * option pystr).

Definition groupdict_of (r : regex) (g : captures) : groupdict :=
  map (fun n => (n, capture n g)) (group_names r).

(** [regex.fullmatch(string)]: the match starts at position 0 and has to
    end at the end of the subject; the engine backtracks until it does. *)
Definition fullmatch (rt : runtime) (r : regex) (s : pystr) : option groupdict :=
  match run rt r 0 s []
            (fun _ rest g => match rest with [] => Some g | _ => None end) with
  | Some g => Some (groupdict_of r g)
  | None => None
  end.

End Re.

Import Re.

(** ** The command table *)

Inductive command := Vod | Clip | Lrrmc | Lastfm | Roll | Bingo | Help.

Definition command_eqb (a b : command) : bool :=
  match a, b with
  | Vod, Vod | Clip, Clip | Lrrmc, Lrrmc | Lastfm, Lastfm
  | Roll, Roll | Bingo, Bingo | Help, Help => true
  | _, _ => false
  end.

Definition pick : pystr := [9935; 65039]%N.      (* U+26CF U+FE0F *)
Definition note : pystr := [127925]%N.           (* U+1F3B5 *)
Definition die : pystr := [127922]%N.            (* U+1F3B2 *)
Definition ambulance : pystr := [128657]%N.      (* U+1F691 *)

Definition seqs (l : list regex) : regex :=
  fold_right Seq (Lit []) l.

Definition re_vod : regex := seqs [Bol; Lit (u "vod"); Eol].
Definition re_clip : regex := seqs [Bol; Lit (u "clip"); Eol].
Definition re_lrrmc : regex :=
  seqs [Bol; Alt (Lit (u "lrrmc")) (Lit pick);
        Opt (Seq (Lit (u " ")) (Group "server" (Plus (Word false))));
        Eol].
Definition re_lastfm : regex :=
  seqs [Bol; Alt (Lit (u "last.fm")) (Lit note); Lit (u " ");
        Group "user" (Plus (Word true)); Eol].
Definition re_roll : regex :=
  seqs [Bol; Alt (Lit (u "roll")) (Lit die);
        Opt (seqs [Lit (u " "); Opt (Group "count" (Plus (Digit false)));
                   Lit (u "d"); Group "sides" (Plus (Digit false))])].
Definition re_bingo : regex := seqs [Bol; Lit (u "bingo"); Eol].
Definition re_help : regex :=
  Alt (Seq Bol (Lit (u "help"))) (Seq (Lit ambulance) Eol).

Definition CMD_REGEX : list (command * regex) :=
  [(Vod, re_vod); (Clip, re_clip); (Lrrmc, re_lrrmc); (Lastfm, re_lastfm);
   (Roll, re_roll); (Bingo, re_bingo); (Help, re_help)].

(** ** The world around one dispatch

    Time and the collaborators.  The clock of an event loop is read as a
    number of seconds; a reading is a finite binary fraction, so it is kept
    as a rational, and the difference of two readings is taken exactly
    (the rounding of the floating-point subtraction is left out).  Each
    collaborator is given by what awaiting its call yields; a dispatch is
    run to its end before the next one is looked at. *)

Record env := {
  interp : runtime;
  (* [loop.time()] of the event loop with that identity *)
  loop_time : nat -> Q;
  (* [await twitch.get_broadcasts(channel, limit)]: the items of the
     iterator it returns *)
  get_broadcasts : Z -> Z -> result (list (list pyval));
  (* [await twitch.get_top_clips(channel, limit)] *)
  get_top_clips : pystr -> Z -> result (list (list pyval));
  (* [await asyncio.wait_for(aiomc.get_status(host, port), deadline)] *)
  wait_for_get_status : pystr -> Z -> Q -> result pyval;
  (* [await songs.get_lastfm_info(user)] *)
  get_lastfm_info : option pystr -> result pyval
}.

Inductive call :=
| CallGetBroadcasts (channel limit : Z)
| CallGetTopClips (channel : pystr) (limit : Z)
| CallGetStatus (host : pystr) (port : Z) (deadline : Q)
| CallGetLastfmInfo (user : option pystr).

(** What a dispatch does that can be observed from outside. *)
Inductive event :=
| LogInfo (logger : string) (msg : pystr)
| LogWarning (logger : string) (msg : pystr)
| Collab (c : call)
| Privmsg (client : nat) (target msg : pystr).

(** ** Objects *)

Record client := {
  client_id : nat;
  nickname : pystr
}.

(** A [CommandHandler] instance. *)
Record instance := {
  prefix : list codepoint;
  override : option pystr;
  client_of : client;
  loop_of : nat
}.

(** The attributes a [wrapper] function carries. *)
Record wrapper_state := {
  _spam_span : Q;
  _spam_last : Q
}.

(** A bound method [self.handle_command_<key>]. *)
Definition bound_method := (instance * command)%type.

(** The objects created with the class and shared by its instances, and
    the trace of what has happened. *)
Record store := {
  routes : list (regex * bound_method);   (* CommandRouter.routes *)
  rate_limited_loop : option nat;         (* CommandHandler.rate_limited.loop *)
  wrappers : command -> wrapper_state;    (* one wrapper per decorated method *)
  trace : list event
}.

(** [asyncio.get_event_loop()] *)
Definition get_event_loop : nat := 0.

(** [Limiter.__init__]'s default span. *)
Definition default_span : Q := 15%Q.

(** The state once the class body has run: no route yet, the limiter on
    the default loop, every wrapper with the limiter's span and
    [_spam_last = 0.0]. *)
Definition class_store : store :=
  {| routes := [];
     rate_limited_loop := Some get_event_loop;
     wrappers := fun _ => {| _spam_span := default_span; _spam_last := 0%Q |};
     trace := [] |}.

(** ** Computations: state, and exceptions that keep the state *)

Definition M (A : Type) : Type := env -> store -> result A * store.

Definition ret {A} (a : A) : M A := fun _ st => (Ok a, st).

Definition bind {A B} (c : M A) (f : A -> M B) : M B :=
  fun e st =>
    match c e st with
    | (Ok a, st') => f a e st'
    | (Raise x, st') => (Raise x, st')
    end.

Definition raise {A} (x : exn) : M A := fun _ st => (Raise x, st).

Definition lift {A} (r : result A) : M A := fun _ st => (r, st).

Definition ask : M env := fun e st => (Ok e, st).

Definition get : M store := fun _ st => (Ok st, st).

(** The store with more events on its trace. *)
Definition traced (st : store) (evs : list event) : store :=
  {| routes := routes st;
     rate_limited_loop := rate_limited_loop st;
     wrappers := wrappers st;
     trace := trace st ++ evs |}.

Definition emit (ev : event) : M unit :=
  fun _ st => (Ok tt, traced st [ev]).

(** [try: c except (exceptions in which): h] *)
Definition try_except {A} (c : M A) (which : exn -> bool) (h : M A) : M A :=
  fun e st =>
    match c e st with
    | (Raise x, st') => if which x then h e st' else (Raise x, st')
    | r => r
    end.

Declare Scope monad_scope.
Delimit Scope monad_scope with monad.
Notation "x <- c ;; k" := (bind c (fun x => k))
  (at level 61, c at next level, right associativity) : monad_scope.
Notation "c ;; k" := (bind c (fun _ => k))
  (at level 61, right associativity) : monad_scope.
Local Open Scope monad_scope.

(** An awaited collaborator call leaves a trace and yields what the world
    answers. *)
Definition await {A} (c : call) (answer : env -> result A) : M A :=
  emit (Collab c) ;;
  e <- ask ;;
  lift (answer e).

(** [self.client.privmsg(target, msg)] *)
Definition privmsg (self : instance) (target msg : pystr) : M unit :=
  emit (Privmsg (client_id (client_of self)) target msg).

(** ** Limiter *)

Definition Qgtb (a b : Q) : bool := negb (Qle_bool a b).

Definition key (c : command) : string :=
  match c with
  | Vod => "vod" | Clip => "clip" | Lrrmc => "lrrmc" | Lastfm => "lastfm"
  | Roll => "roll" | Bingo => "bingo" | Help => "help"
  end.

(** [func.__name__] *)
Definition func_name (c : command) : pystr := u "handle_command_" ++ u (key c).

(** [wrapper._spam_last = now] on the wrapper of [c]. *)
Definition stamped (st : store) (c : command) (now : Q) : store :=
  {| routes := routes st;
     rate_limited_loop := rate_limited_loop st;
     wrappers := fun c' =>
       if command_eqb c' c
       then {| _spam_span := _spam_span (wrappers st c); _spam_last := now |}
       else wrappers st c';
     trace := trace st |}.

Definition set_spam_last (c : command) (now : Q) : M unit :=
  fun _ st => (Ok tt, stamped st c now).

(** The warning of a suppressed call. *)
Definition suppressed (c : command) : event :=
  LogWarning "command.limiter" (u "Suppressed call to " ++ func_name c ++ u ".").

(** [Limiter.__call__(func)]: the wrapper put around the method [c].
    [self.loop.time()] fails on a limiter whose loop is [None]. *)
Definition wrapper (c : command) (func : M unit) : M unit :=
  st <- get ;;
  match rate_limited_loop st with
  | None => raise AttributeError
  | Some loop =>
      e <- ask ;;
      let now := loop_time e loop in
      if Qgtb (now - _spam_last (wrappers st c))%Q (_spam_span (wrappers st c))
      then set_spam_last c now ;; func
      else emit (suppressed c)
  end.

(** ** CommandRouter *)

Definition add_route (regex : regex) (callback : bound_method) : M unit :=
  fun _ st =>
    (Ok tt,
     {| routes := routes st ++ [(regex, callback)];
        rate_limited_loop := rate_limited_loop st;
        wrappers := wrappers st;
        trace := trace st |}).

(** [get_route]: the callback of the first route whose pattern matches the
    whole string, with [match.groupdict()] as its keyword arguments. *)
Fixpoint get_route {C : Type} (rt : runtime) (routes : list (regex * C))
         (string : pystr) : option (C * groupdict) :=
  match routes with
  | [] => None
  | (regex, callback) :: rest =>
      match fullmatch rt regex string with
      | None => get_route rt rest string
      | Some m => Some (callback, m)
      end
  end.

(** ** Command handlers *)

Definition quote : pystr := [34%N].

Record server := {
  name : pystr;
  host : pystr;
  port : Z;
  info : pystr
}.

Definition vanilla : server :=
  {| name := u "the LRR Vanilla Minecraft Server";
     host := u "minecraft.darkmorford.net";
     port := 25565;
     info := u "Check http://minecraft.darkmorford.net:8123/ for the dynamic map." |}.

Definition snorsh : server :=
  {| name := u "the LRR Modded Minecraft Server";
     host := u "ftb.darkmorford.net";
     port := 25565;
     info := u "One up James on SnorshCraft." |}.

Definition LRRMC_SERVERS : list (pystr * server) :=
  [(u "vanilla", vanilla); (u "snorsh", snorsh)].

Definition BINGO_URL : pystr := u "https://pump19.eu/bingo".
Definition COMMAND_URL : pystr := u "https://pump19.eu/commands".

(** [LRRMC_SERVERS.get(server, LRRMC_SERVERS["vanilla"])] *)
Definition servers_get (alias : option pystr) : server :=
  match alias with
  | None => vanilla
  | Some k =>
      match find (fun p => pystr_eqb (fst p) k) LRRMC_SERVERS with
      | Some p => snd p
      | None => vanilla
      end
  end.

(** The keyword-only parameters of each handler, with their defaults. *)
Definition params (c : command) : list (string * option pystr) :=
  match c with
  | Lrrmc => [("server", Some (u "vanilla"))]
  | Lastfm => [("user", None)]
  | Roll => [("count", None); ("sides", None)]
  | Vod | Clip | Bingo | Help => []
  end.

Fixpoint lookup {A : Type} (n : string) (l : list (string * A)) : option A :=
  match l with
  | [] => None
  | (k, v) :: l' => if String.eqb k n then Some v else lookup n l'
  end.

(** The value a keyword-only parameter is bound to in a call with the
    keyword arguments [kw]. *)
Definition bound (c : command) (n : string) (kw : groupdict) : option pystr :=
  match lookup n kw with
  | Some v => v
  | None =>
      match lookup n (params c) with
      | Some d => d
      | None => None
      end
  end.

(** A keyword the function does not declare is a [TypeError]. *)
Definition check_kwargs (c : command) (kw : groupdict) : M unit :=
  if forallb (fun p => existsb (fun q => String.eqb (fst q) (fst p)) (params c)) kw
  then ret tt
  else raise TypeError.

(** [next(it, None)] *)
Definition next_or_none (it : list (list pyval)) : option (list pyval) :=
  hd_error it.

(** [fmt.format( *item)]: unpacking [None] is a [TypeError]. *)
Definition unpack (item : option (list pyval)) : M (list pyval) :=
  match item with
  | Some args => ret args
  | None => raise TypeError
  end.

(** A positional replacement field. *)
Definition field (args : list pyval) (i : nat) : M pystr :=
  e <- ask ;;
  match nth_error args i with
  | Some v => ret (py_str (interp e) v)
  | None => raise IndexError
  end.

Definition str_opt (o : option pystr) : pystr :=
  match o with
  | Some s => s
  | None => u "None"
  end.

Definition vod_body (self : instance) (target nick : pystr) : M unit :=
  broadcasts <- await (CallGetBroadcasts 27132299 1)
                      (fun e => get_broadcasts e 27132299 1) ;;
  let vod := next_or_none broadcasts in
  args <- unpack vod ;;
  f0 <- field args 0 ;;
  f2 <- field args 2 ;;
  f1 <- field args 1 ;;
  let broadcast_msg :=
    u "Latest Broadcast: " ++ f0 ++ u " [" ++ f2 ++ u "] | " ++ f1 in
  privmsg self target broadcast_msg.

Definition clip_body (self : instance) (target nick : pystr) : M unit :=
  clips <- await (CallGetTopClips (u "loadingreadyrun") 1)
                 (fun e => get_top_clips e (u "loadingreadyrun") 1) ;;
  let clip := next_or_none clips in
  args <- unpack clip ;;
  f0 <- field args 0 ;;
  f2 <- field args 2 ;;
  f1 <- field args 1 ;;
  let clip_msg :=
    u "Top Clip: " ++ f0 ++ u " [" ++ f2 ++ u "] | https://clips.twitch.tv/" ++ f1 in
  privmsg self target clip_msg.

Definition base_msg (s : server) (status : pystr) : pystr :=
  u "Join " ++ name s ++ u " on " ++ host s ++ u ":" ++ str_of_Z (port s)
    ++ u "! " ++ info s ++ u " Current Status: " ++ status.

Definition is_timeout (x : exn) : bool :=
  match x with TimeoutError => true | _ => false end.

Definition is_key_or_type (x : exn) : bool :=
  match x with KeyError | TypeError => true | _ => false end.

Definition deadline : Q := 2%Q.

Definition lrrmc_body (self : instance) (target nick : pystr)
           (server : option pystr) : M unit :=
  let server := servers_get server in
  status <- try_except
              (await (CallGetStatus (host server) (port server) deadline)
                     (fun e => wait_for_get_status e (host server) (port server)
                                                   deadline))
              is_timeout
              (ret VNone) ;;
  if negb (truthy status) then
    let no_lrrmc_msg := base_msg server (u "Unknown") in
    privmsg self target no_lrrmc_msg
  else
    np <- try_except
            (players <- lift (getitem status (u "players")) ;;
             nowp <- lift (getitem players (u "online")) ;;
             players' <- lift (getitem status (u "players")) ;;
             maxp <- lift (getitem players' (u "max")) ;;
             ret (nowp, maxp))
            is_key_or_type
            (ret (VStr (u "?"), VStr (u "?"))) ;;
    e <- ask ;;
    let status_msg :=
      u "Online - " ++ py_str (interp e) (fst np) ++ u "/"
        ++ py_str (interp e) (snd np) ++ u " players" in
    let lrrmc_msg := base_msg server status_msg in
    privmsg self target lrrmc_msg.

Definition lastfm_body (self : instance) (target nick : pystr)
           (user : option pystr) : M unit :=
  info <- await (CallGetLastfmInfo user) (fun e => get_lastfm_info e user) ;;
  if negb (truthy info) then
    let no_lastfm_msg :=
      u "Cannot query last.fm user information for " ++ str_opt user ++ u "." in
    privmsg self target no_lastfm_msg
  else
    name <- lift (dict_get info (u "name")) ;;
    live <- lift (dict_get info (u "live")) ;;
    track <- lift (dict_get info (u "track")) ;;
    artist <- lift (dict_get info (u "artist")) ;;
    e <- ask ;;
    let str := py_str (interp e) in
    if negb (truthy track) && negb (truthy artist) then
      let no_lastfm_msg :=
        u "Cannot query most recently played track for " ++ str name ++ u "." in
      privmsg self target no_lastfm_msg
    else
      let tempus := if truthy live then u "is listening" else u "last listened" in
      let lastfm_msg :=
        str name ++ u " " ++ tempus ++ u " to " ++ quote ++ str track ++ quote
            ++ u " by " ++ str artist in
      privmsg self target lastfm_msg.

Definition roll_body (self : instance) (target nick : pystr)
           (count sides : option pystr) : M unit :=
  privmsg self target (u "THIS is why we can't have nice things!").

Definition bingo_body (self : instance) (target nick : pystr) : M unit :=
  let bingo_msg :=
    u "Check out " ++ BINGO_URL ++ u " for our interactive Trope Bingo cards." in
  privmsg self target bingo_msg.

Definition help_body (self : instance) (target nick : pystr) : M unit :=
  let help_msg :=
    u "Pump19 is run by Twisted Pear. Check " ++ COMMAND_URL
      ++ u " for a list of supported commands." in
  privmsg self target help_msg.

(** The undecorated method [c], called with [(target, nick, **kw)]. *)
Definition func (self : instance) (c : command) (target nick : pystr)
           (kw : groupdict) : M unit :=
  check_kwargs c kw ;;
  match c with
  | Vod => vod_body self target nick
  | Clip => clip_body self target nick
  | Lrrmc => lrrmc_body self target nick (bound Lrrmc "server" kw)
  | Lastfm => lastfm_body self target nick (bound Lastfm "user" kw)
  | Roll => roll_body self target nick (bound Roll "count" kw) (bound Roll "sides" kw)
  | Bingo => bingo_body self target nick
  | Help => help_body self target nick
  end.

(** [self.handle_command_<key>(target, nick, **kw)]: every method is
    decorated with [@rate_limited]. *)
Definition handle_command (cb : bound_method) (target nick : pystr)
           (kw : groupdict) : M unit :=
  wrapper (snd cb) (func (fst cb) (snd cb) target nick kw).

(** ** CommandHandler *)

(** [setup_routing]: one route per entry of [CMD_REGEX], in the order of
    the table; each of the seven handlers exists and is callable. *)
Definition setup_routing (self : instance) : M unit :=
  fold_left (fun acc kr => acc ;; add_route (snd kr) (self, fst kr))
            CMD_REGEX (ret tt).

(** [self.rate_limited.loop = loop] *)
Definition set_rate_limited_loop (loop : option nat) : M unit :=
  fun _ st =>
    (Ok tt,
     {| routes := routes st;
        rate_limited_loop := loop;
        wrappers := wrappers st;
        trace := trace st |}).

(** The attributes [__init__] gives the new object: [tuple(prefix)],
    [override], [client] and [loop or asyncio.get_event_loop()]. *)
Definition new_instance (client : client) (loop : option nat) (prefix : pystr)
           (override : option pystr) : instance :=
  {| prefix := prefix;
     override := override;
     client_of := client;
     loop_of := match loop with Some l => l | None => get_event_loop end |}.

(** [CommandHandler.__init__(client, loop=loop, prefix=prefix,
    override=override)]: the limiter of the class is put on [loop] as it
    was passed, and the routes are added.  The registration of
    [handle_privmsg] with the client is the client's business and leaves
    no mark here. *)
Definition init (client : client) (loop : option nat) (prefix : pystr)
           (override : option pystr) : M instance :=
  emit (LogInfo "command" (u "Creating CommandHandler instance.")) ;;
  let self := new_instance client loop prefix override in
  set_rate_limited_loop loop ;;
  setup_routing self ;;
  ret self.

(** [message.startswith(self.prefix)], the prefix being a tuple of
    one-character strings. *)
Definition startswith (message : pystr) (prefix : list codepoint) : bool :=
  match message with
  | [] => false
  | c :: _ => existsb (N.eqb c) prefix
  end.

(** The target a reply goes to: the sender, for a query to the bot. *)
Definition reply_target (self : instance) (nick target : pystr) : pystr :=
  if pystr_eqb target (nickname (client_of self)) then nick else target.

(** The line logged for a command. *)
Definition got_command (cmd nick : pystr) : event :=
  LogInfo "command"
          (u "Got command " ++ quote ++ cmd ++ quote ++ u " from " ++ nick ++ u ".").

Definition handle_privmsg (self : instance) (nick target message : pystr)
  : M unit :=
  if negb (startswith message (prefix self)) || (List.length message <? 2)%nat
  then ret tt
  else
    let cmd := tl message in
    emit (got_command cmd nick) ;;
    let target := reply_target self nick target in
    st <- get ;;
    e <- ask ;;
    match get_route (interp e) (routes st) cmd with
    | Some (callback, kw) => handle_command callback target nick kw
    | None => ret tt
    end.

(** ** What the properties are stated with *)

(** An interpreter for the closed examples: their texts are ASCII or the
    emoji of the patterns, so the tables beyond ASCII are never decisive. *)
Definition plain_rt : runtime :=
  {| uni_word := fun _ => false;
     uni_digit := fun _ => false;
     container_repr := fun _ => u "{...}" |}.

(** The routes [setup_routing] registers for an instance. *)
Definition table (self : instance) : list (regex * bound_method) :=
  map (fun kr => (snd kr, (self, fst kr))) CMD_REGEX.

(** A route whose pattern does not match the command. *)
Definition no_match {C : Type} (rt : runtime) (s : pystr) (p : regex * C) : Prop :=
  fullmatch rt (fst p) s = None.

Definition is_privmsg (ev : event) : bool :=
  match ev with Privmsg _ _ _ => true | _ => false end.

(** A computation that only adds to the trace. *)
Definition tracing {A : Type} (m : M A) : Prop :=
  forall e st, exists evs, snd (m e st) = traced st evs.

(** The dictionary has nothing usable under the key: no entry, or a value
    that counts as false ([None], an empty string). *)
Definition lacks (d : list (pystr * pyval)) (k : pystr) : Prop :=
  match assoc k d with
  | Some v => truthy v = false
  | None => True
  end.

(** The two counts of a status, as the handler reads them: the values
    under [players], or the placeholder for both when either is not
    there. *)
Definition counts (rt : runtime) (status : pyval) : pystr * pystr :=
  match getitem status (u "players") with
  | Ok players =>
      match getitem players (u "online"), getitem players (u "max") with
      | Ok nowp, Ok maxp => (py_str rt nowp, py_str rt maxp)
      | _, _ => (u "?", u "?")
      end
  | Raise _ => (u "?", u "?")
  end.

(** A running bot for the closed examples. *)

Definition demo_client : client := {| client_id := 1; nickname := u "pump19" |}.

Definition demo_self : instance :=
  {| prefix := u "!"; override := None; client_of := demo_client; loop_of := 0 |}.

(** A world in which the clock reads [now], the video platform has
    nothing to list, the status probe runs into its deadline and last.fm
    knows nobody. *)
Definition demo_env (now : Q) : env :=
  {| interp := plain_rt;
     loop_time := fun _ => now;
     get_broadcasts := fun _ _ => Ok [];
     get_top_clips := fun _ _ => Ok [];
     wait_for_get_status := fun _ _ _ => Raise TimeoutError;
     get_lastfm_info := fun _ => Ok VNone |}.

(** The store once [main] has built its one [CommandHandler]. *)
Definition demo_store : store :=
  snd (init demo_client (Some 0%nat) (u "!") None (demo_env 0) class_store).

(** ** More to state properties with *)

(** Whether a pattern matches the whole text. *)
Definition matches (rt : runtime) (r : regex) (s : pystr) : bool :=
  match fullmatch rt r s with
  | Some _ => true
  | None => false
  end.

(** The messages sent among some events. *)
Definition privmsgs (evs : list event) : list event := filter is_privmsg evs.

(** The end of a [fullmatch]: nothing of the subject may be left. *)
Definition finish : cont :=
  fun _ rest g => match rest with [] => Some g | _ => None end.

(** A continuation that goes on only at the end of the subject. *)
Definition at_end_only (k : cont) : Prop :=
  forall pos c s g, k pos (c :: s) g = None.

(** The pattern a command was registered with. *)
Definition pattern_of (c : command) : regex :=
  match c with
  | Vod => re_vod | Clip => re_clip | Lrrmc => re_lrrmc | Lastfm => re_lastfm
  | Roll => re_roll | Bingo => re_bingo | Help => re_help
  end.


(** One or more decimal digits, as [\d+] sees them. *)
Definition digits (rt : runtime) (ds : pystr) : Prop :=
  ds <> [] /\ forallb (in_class rt (Digit false)) ds = true.

(** The literal texts a command's pattern can begin with. *)
Definition heads (c : command) : list pystr :=
  match c with
  | Vod => [u "vod"]
  | Clip => [u "clip"]
  | Lrrmc => [u "lrrmc"; pick]
  | Lastfm => [u "last.fm"; note]
  | Roll => [u "roll"; die]
  | Bingo => [u "bingo"]
  | Help => [u "help"; ambulance]
  end.

Definition starts (l s : pystr) : bool :=
  match lit_prefix l s with
  | Some _ => true
  | None => false
  end.

(** The command whose head a text begins with. *)
Definition head_of (s : pystr) : option command :=
  find (fun c => existsb (fun l => starts l s) (heads c))
       [Vod; Clip; Lrrmc; Lastfm; Roll; Bingo; Help].

(** A computation that only adds to the trace, and sends nothing. *)
Definition quiet {A : Type} (m : M A) : Prop :=
  forall e st, exists evs, snd (m e st) = traced st evs /\ privmsgs evs = [].

(** Events with at most one message, sent through the client [cid] to
    [target]. *)
Definition one_reply (cid : nat) (target : pystr) (evs : list event) : Prop :=
  privmsgs evs = [] \/ exists msg, privmsgs evs = [Privmsg cid target msg].

(** A computation that only adds such events to the trace. *)
Definition replying {A : Type} (cid : nat) (target : pystr) (m : M A) : Prop :=
  forall e st, exists evs, snd (m e st) = traced st evs /\ one_reply cid target evs.

(** Whether [handle_privmsg] takes a message for a command. *)
Definition is_command (self : instance) (message : pystr) : bool :=
  negb (negb (startswith message (prefix self))
        || (List.length message <? 2)%nat).

(** A world like [demo_env] at clock 100, with a given outcome of the
    status request and a given answer of last.fm. *)
Definition demo_world (status lastfm : result pyval) : env :=
  {| interp := plain_rt;
     loop_time := fun _ => 100%Q;
     get_broadcasts := fun _ _ => Ok [];
     get_top_clips := fun _ _ => Ok [];
     wait_for_get_status := fun _ _ _ => status;
     get_lastfm_info := fun _ => lastfm |}.

(** ** config.py *)
Module Config.

(** [os.environ] *)
Definition environ := list (string * pystr).

Definition bindr {A B : Type} (r : result A) (f : A -> result B) : result B :=
  match r with
  | Ok a => f a
  | Raise x => Raise x
  end.

(** [environ[key]] *)
Definition env_item (env : environ) (key : string) : result pystr :=
  match lookup key env with
  | Some v => Ok v
  | None => Raise KeyError
  end.

(** [environ.get(key)] *)
Definition env_get (env : environ) (key : string) : pyval :=
  match lookup key env with
  | Some v => VStr v
  | None => VNone
  end.

(** [key in environ] *)
Definition env_has (env : environ) (key : string) : bool :=
  match lookup key env with
  | Some _ => true
  | None => false
  end.

(** [s.split(sep)] for a separator of one character. *)
Fixpoint split (sep : codepoint) (s : pystr) : list pystr :=
  match s with
  | [] => [[]]
  | c :: s' =>
      if (c =? sep)%N then [] :: split sep s'
      else
        match split sep s' with
        | p :: ps => (c :: p) :: ps
        | [] => [[c]]
        end
  end.

(** [sep.join(parts)] *)
Fixpoint join (sep : codepoint) (parts : list pystr) : pystr :=
  match parts with
  | [] => []
  | [p] => p
  | p :: ps => p ++ sep :: join sep ps
  end.

Definition semicolon : codepoint := 59%N.

Section WithInt.
(** The built-in [int()] on a string: the integer, or [ValueError]. *)
Variable py_int : pystr -> result Z.

(** [__get_irc_config()]: the channels are read first, then the entries
    of the dictionary in the order they are written. *)
Definition get_irc_config (env : environ) : result pyval :=
  bindr (env_item env "PUMP19_IRC_CHANNELS") (fun channel_list =>
  let channels := split semicolon channel_list in
  bindr (env_item env "PUMP19_IRC_HOSTNAME") (fun hostname =>
  bindr (env_item env "PUMP19_IRC_PORT") (fun port_s =>
  bindr (py_int port_s) (fun port =>
  let ssl := if env_has env "PUMP19_IRC_SSL" then true else false in
  let password := env_get env "PUMP19_IRC_PASSWORD" in
  bindr (env_item env "PUMP19_IRC_NICKNAME") (fun nickname =>
  bindr (env_item env "PUMP19_IRC_USERNAME") (fun username =>
  bindr (env_item env "PUMP19_IRC_REALNAME") (fun realname =>
  Ok (VDict [(u "hostname", VStr hostname);
             (u "port", VInt port);
             (u "ssl", VBool ssl);
             (u "password", password);
             (u "nickname", VStr nickname);
             (u "username", VStr username);
             (u "realname", VStr realname);
             (u "channels", VList (map VStr channels))])))))))).

(** [__get_cmd_config()] *)
Definition get_cmd_config (env : environ) : result pyval :=
  Ok (VDict [(u "prefix",
              match lookup "PUMP19_CMD_PREFIX" env with
              | Some v => VStr v
              | None => VStr (u "!")
              end);
             (u "override", env_get env "PUMP19_CMD_OVERRIDE")]).

(** [get_config(component)] *)
Definition get_config (env : environ) (component : pystr) : result pyval :=
  if pystr_eqb component (u "irc") then get_irc_config env
  else if pystr_eqb component (u "cmd") then get_cmd_config env
  else Raise KeyError.
End WithInt.

(** The variables [__get_irc_config] cannot do without. *)
Definition required : list string :=
  ["PUMP19_IRC_CHANNELS"; "PUMP19_IRC_HOSTNAME"; "PUMP19_IRC_PORT";
   "PUMP19_IRC_NICKNAME"; "PUMP19_IRC_USERNAME"; "PUMP19_IRC_REALNAME"].

(** An [int()] for the closed examples: decimal digits only. *)
Definition digits_int (s : pystr) : result Z :=
  if match s with [] => false | _ => forallb ascii_digit s end
  then Ok (fold_left (fun acc c => acc * 10 + (Z.of_N c - 48))%Z s 0%Z)
  else Raise (Failure "ValueError").

Definition demo_environ : environ :=
  [("PUMP19_IRC_CHANNELS", u "#lrr;#pump19");
   ("PUMP19_IRC_HOSTNAME", u "irc.example.net");
   ("PUMP19_IRC_PORT", u "6697");
   ("PUMP19_IRC_SSL", u "0");
   ("PUMP19_IRC_NICKNAME", u "pump19");
   ("PUMP19_IRC_USERNAME", u "pump");
   ("PUMP19_IRC_REALNAME", u "Pump19")].

End Config.

(** ** pump19.py *)

(** [tuple(prefix)] for the value given as [prefix]: the characters of a
    string; [None], a boolean or an integer cannot be iterated.  The
    configuration never gives a list or a dictionary, and an instance has
    no place for what their [tuple] would hold. *)
Definition tuple_of (v : pyval) : result (list codepoint) :=
  match v with
  | VStr s => Ok s
  | VNone | VBool _ | VInt _ => Raise TypeError
  | VList _ | VDict _ => Raise (Failure "prefix is a container")
  end.

(** The value kept as [self.override]: [environ.get] gives a string or
    [None]. *)
Definition override_of (v : pyval) : option pystr :=
  match v with
  | VStr s => Some s
  | _ => None
  end.

(** [main], up to the construction of the [CommandHandler]: the IRC
    configuration is read and handed to [protocol.Protocol], whose result
    (the client and its loop) is taken as given; the command configuration
    is read and unpacked into the constructor. *)
Definition main_setup (py_int : pystr -> result Z) (environ : Config.environ)
           (Protocol : pyval -> result (client * nat)) : M instance :=
  emit (LogInfo "pump19" (u "Pump19 started.")) ;;
  client_config <- lift (Config.get_config py_int environ (u "irc")) ;;
  cl <- lift (Protocol client_config) ;;
  let client := fst cl in
  let loop := snd cl in
  cmdhdl_config <- lift (Config.get_config py_int environ (u "cmd")) ;;
  prefix <- lift (dict_get cmdhdl_config (u "prefix")) ;;
  override <- lift (dict_get cmdhdl_config (u "override")) ;;
  prefix <- lift (tuple_of prefix) ;;
  init client (Some loop) prefix (override_of override).

(** The prefix the command configuration gives. *)
Definition configured_prefix (environ : Config.environ) : pystr :=
  match lookup "PUMP19_CMD_PREFIX" environ with
  | Some v => v
  | None => u "!"
  end.

(** A [Protocol] for the closed examples: the client of the demo, on
    loop 0. *)
Definition demo_protocol (cfg : pyval) : result (client * nat) :=
  Ok (demo_client, 0%nat).

(** ** database/__init__.py *)
Module Database.

(** [DATABASE = urlparse(DATABASE_URL)], as far as the module reads it. *)
Record url := {
  hostname : option pystr;
  port : option Z;
  path : pystr;
  username : option pystr;
  password : option pystr
}.

(** An engine object; it counts as true. *)
Definition engine := nat.

Inductive db_event :=
| Info (msg : pystr)
| CreateEngine (host : option pystr) (port : option Z) (database : pystr)
               (user password : option pystr) (minsize maxsize : Z).

(** The module's global and what it has done so far. *)
Record state := {
  ENGINE : option engine;
  events : list db_event
}.

Definition is_create (ev : db_event) : bool :=
  match ev with CreateEngine _ _ _ _ _ _ _ => true | _ => false end.

(** The parsed URL, and what [aiopg.sa.create_engine] yields on its
    first, second, ... call. *)
Record world := {
  DATABASE : url;
  aiopg_create_engine : nat -> result engine
}.

Definition initial : state := {| ENGINE := None; events := [] |}.

(** [create_engine()] *)
Definition create_engine (w : world) (st : state) : result engine * state :=
  let database := tl (path (DATABASE w)) in
  let host := hostname (DATABASE w) in
  let msg :=
    u "Creating engine for database " ++ database ++ u " on " ++ str_opt host
      ++ u "." in
  let asked := List.length (filter is_create (events st)) in
  (aiopg_create_engine w asked,
   {| ENGINE := ENGINE st;
      events := events st
                  ++ [Info msg;
                      CreateEngine host (port (DATABASE w)) database
                                   (username (DATABASE w))
                                   (password (DATABASE w)) 1 5] |}).

(** [get_engine()], one caller at a time. *)
Definition get_engine (w : world) (st : state) : result engine * state :=
  match ENGINE st with
  | Some eng => (Ok eng, st)
  | None =>
      match create_engine w st with
      | (Ok eng, st') =>
          (Ok eng, {| ENGINE := Some eng; events := events st' |})
      | (Raise x, st') => (Raise x, st')
      end
  end.

(** [get_engine()] called [n] times in a row; the last result. *)
Fixpoint get_engine_times (n : nat) (w : world) (st : state)
  : result engine * state :=
  match n with
  | 0 => get_engine w st
  | S n' => get_engine_times n' w (snd (get_engine w st))
  end.

Definition demo_url : url :=
  {| hostname := Some (u "db.example.net");
     port := Some 5432%Z;
     path := u "/pump19";
     username := Some (u "pump");
     password := None |}.

(** A database that refuses the first connection and accepts the next. *)
Definition demo_world : world :=
  {| DATABASE := demo_url;
     aiopg_create_engine := fun n =>
       match n with
       | 0 => Raise (Failure "OperationalError")
       | S _ => Ok 7
       end |}.

(** A database that accepts at once. *)
Definition ready_world : world :=
  {| DATABASE := demo_url; aiopg_create_engine := fun _ => Ok 7 |}.

End Database.


(** U+1F691, the one character of [ambulance]. *)
Definition ambulance_char : codepoint := 128657%N.

(** * Properties *)

(** ** Equality tests *)

Lemma pystr_eqb_eq (a b : pystr) : pystr_eqb a b = true <-> a = b.
Proof.
  unfold pystr_eqb. destruct (list_eq_dec N.eq_dec a b); split; congruence.
Qed.

Lemma command_eqb_eq (a b : command) : command_eqb a b = true <-> a = b.
Proof. destruct a, b; simpl; split; (congruence || discriminate). Qed.

(** ** Matching *)

Lemma lit_prefix_app (l s s' : pystr) :
  lit_prefix l s = Some s' <-> s = l ++ s'.
Proof.
  revert s. induction l as [|a l IH]; intros s; simpl.
  - split; congruence.
  - destruct s as [|b s].
    + split; discriminate.
    + destruct (N.eqb_spec a b) as [->|Hne].
      * rewrite IH. split; congruence.
      * split; [discriminate | intros H; congruence].
Qed.

Lemma help_fullmatch (rt : runtime) (s : pystr) :
  fullmatch rt re_help s <> None <-> s = u "help" \/ s = ambulance.
Proof.
  unfold fullmatch, re_help. cbn [run Nat.eqb].
  split.
  - intros H.
    destruct (lit_prefix (u "help") s) as [s1|] eqn:E1.
    + apply lit_prefix_app in E1. destruct s1 as [|c s1].
      * left. now rewrite app_nil_r in E1.
      * destruct (lit_prefix ambulance s) as [s2|] eqn:E2.
        -- subst s. discriminate E2.
        -- congruence.
    + destruct (lit_prefix ambulance s) as [s2|] eqn:E2; [|congruence].
      apply lit_prefix_app in E2. destruct s2 as [|c s2].
      * right. now rewrite app_nil_r in E2.
      * destruct (at_eol (c :: s2)); congruence.
  - intros [-> | ->]; vm_compute; discriminate.
Qed.

(** ** The router *)

Section Router.
Context {C : Type}.
Variable rt : runtime.

Lemma get_route_app (l1 l2 : list (regex * C)) (s : pystr) :
  get_route rt (l1 ++ l2) s =
  match get_route rt l1 s with
  | Some x => Some x
  | None => get_route rt l2 s
  end.
Proof.
  induction l1 as [|[r cb] l1 IH]; simpl; [reflexivity|].
  destruct (fullmatch rt r s); [reflexivity | exact IH].
Qed.

Lemma get_route_none (rs : list (regex * C)) (s : pystr) :
  get_route rt rs s = None <-> Forall (no_match rt s) rs.
Proof.
  induction rs as [|[r cb] rs IH]; simpl.
  - split; [constructor | reflexivity].
  - destruct (fullmatch rt r s) as [m|] eqn:E.
    + split; [discriminate|].
      intros H. inversion H as [|? ? Hhd _]; subst.
      unfold no_match in Hhd; simpl in Hhd. congruence.
    + rewrite IH. split.
      * intros H. constructor; [exact E | exact H].
      * intros H. now inversion H.
Qed.

Lemma get_route_first (pre post : list (regex * C)) (r : regex) (cb : C)
      (m : groupdict) (s : pystr) :
  Forall (no_match rt s) pre ->
  fullmatch rt r s = Some m ->
  get_route rt (pre ++ (r, cb) :: post) s = Some (cb, m).
Proof.
  intros Hpre Hm. rewrite get_route_app.
  apply get_route_none in Hpre. rewrite Hpre. simpl. now rewrite Hm.
Qed.

Lemma get_route_some (rs : list (regex * C)) (s : pystr) (cb : C)
      (m : groupdict) :
  get_route rt rs s = Some (cb, m) ->
  exists pre r post,
    rs = pre ++ (r, cb) :: post /\
    Forall (no_match rt s) pre /\
    fullmatch rt r s = Some m.
Proof.
  induction rs as [|[r cb'] rs IH]; simpl; [discriminate|].
  destruct (fullmatch rt r s) as [m'|] eqn:E.
  - intros H. injection H as -> ->.
    exists [], r, rs. repeat split; [constructor | exact E].
  - intros H. destruct (IH H) as (pre & r0 & post & -> & Hpre & Hm).
    exists ((r, cb') :: pre), r0, post. repeat split; [|exact Hm].
    constructor; [exact E | exact Hpre].
Qed.
End Router.

(** ** Stores and traces *)

Lemma traced_nil (st : store) : traced st [] = st.
Proof. destruct st; unfold traced; simpl. now rewrite app_nil_r. Qed.

Lemma traced_traced (st : store) (a b : list event) :
  traced (traced st a) b = traced st (a ++ b).
Proof. unfold traced; simpl. now rewrite app_assoc. Qed.

(** A message that is no command leaves no trace at all. *)
Lemma handle_privmsg_not_command (self : instance) (nick target message : pystr)
      (e : env) (st : store) :
  negb (startswith message (prefix self)) || (List.length message <? 2)%nat = true ->
  handle_privmsg self nick target message e st = (Ok tt, st).
Proof. intros H. unfold handle_privmsg. now rewrite H. Qed.

(** A command is logged, resolved and, when routed, handed to its
    handler. *)
Lemma handle_privmsg_command (self : instance) (nick target message : pystr)
      (e : env) (st : store) :
  negb (startswith message (prefix self)) || (List.length message <? 2)%nat = false ->
  handle_privmsg self nick target message e st =
  match get_route (interp e) (routes st) (tl message) with
  | Some (callback, kw) =>
      handle_command callback (reply_target self nick target) nick kw e
                     (traced st [got_command (tl message) nick])
  | None => (Ok tt, traced st [got_command (tl message) nick])
  end.
Proof.
  intros H. unfold handle_privmsg. rewrite H.
  unfold bind, emit, get, ask, got_command, reply_target; simpl.
  destruct (get_route (interp e) (routes st) (tl message)) as [[cb kw]|];
    reflexivity.
Qed.

(** ** Computations that only add to the trace *)

Lemma tracing_ret {A} (a : A) : tracing (ret a).
Proof. intros e st. exists []. simpl. now rewrite traced_nil. Qed.

Lemma tracing_raise {A} (x : exn) : tracing (@raise A x).
Proof. intros e st. exists []. simpl. now rewrite traced_nil. Qed.

Lemma tracing_lift {A} (r : result A) : tracing (lift r).
Proof. intros e st. exists []. simpl. now rewrite traced_nil. Qed.

Lemma tracing_ask : tracing ask.
Proof. intros e st. exists []. simpl. now rewrite traced_nil. Qed.

Lemma tracing_get : tracing get.
Proof. intros e st. exists []. simpl. now rewrite traced_nil. Qed.

Lemma tracing_emit (ev : event) : tracing (emit ev).
Proof. intros e st. now exists [ev]. Qed.

Lemma tracing_bind {A B} (c : M A) (f : A -> M B) :
  tracing c -> (forall a, tracing (f a)) -> tracing (bind c f).
Proof.
  intros Hc Hf e st. unfold bind.
  destruct (Hc e st) as [evs Hevs].
  destruct (c e st) as [[a|x] st']; simpl in *; subst st'.
  - destruct (Hf a e (traced st evs)) as [evs' Hevs'].
    exists (evs ++ evs'). now rewrite Hevs', traced_traced.
  - now exists evs.
Qed.

Lemma tracing_try_except {A} (c : M A) (which : exn -> bool) (h : M A) :
  tracing c -> tracing h -> tracing (try_except c which h).
Proof.
  intros Hc Hh e st. unfold try_except.
  destruct (Hc e st) as [evs Hevs].
  destruct (c e st) as [[a|x] st']; simpl in *; subst st'.
  - now exists evs.
  - destruct (which x); simpl.
    + destruct (Hh e (traced st evs)) as [evs' Hevs'].
      exists (evs ++ evs'). now rewrite Hevs', traced_traced.
    + now exists evs.
Qed.

Create HintDb tracing.
#[local] Hint Resolve tracing_ret tracing_raise tracing_lift tracing_ask
  tracing_get tracing_emit tracing_bind tracing_try_except : tracing.

Ltac tracing_step :=
  match goal with
  | |- tracing (if ?b then _ else _) => destruct b
  | |- tracing (match ?x with _ => _ end) => destruct x
  | |- forall _, _ => intro
  | |- tracing (bind _ _) => apply tracing_bind
  | |- tracing (try_except _ _ _) => apply tracing_try_except
  | |- tracing _ => solve [auto with tracing]
  end.

Lemma tracing_await {A} (c : call) (answer : env -> result A) :
  tracing (await c answer).
Proof. unfold await. repeat tracing_step. Qed.

Lemma tracing_privmsg (self : instance) (target msg : pystr) :
  tracing (privmsg self target msg).
Proof. unfold privmsg. auto with tracing. Qed.

#[local] Hint Resolve tracing_await tracing_privmsg : tracing.

Lemma tracing_field (args : list pyval) (i : nat) : tracing (field args i).
Proof. unfold field. repeat tracing_step. Qed.

Lemma tracing_unpack (item : option (list pyval)) : tracing (unpack item).
Proof. unfold unpack. repeat tracing_step. Qed.

Lemma tracing_check_kwargs (c : command) (kw : groupdict) :
  tracing (check_kwargs c kw).
Proof. unfold check_kwargs. repeat tracing_step. Qed.

#[local] Hint Resolve tracing_field tracing_unpack tracing_check_kwargs : tracing.

(** The undecorated methods send, log and call collaborators; they touch
    neither the routes nor any limiter state. *)
Lemma tracing_func (self : instance) (c : command) (target nick : pystr)
      (kw : groupdict) :
  tracing (func self c target nick kw).
Proof.
  unfold func. apply tracing_bind; [auto with tracing|]. intros _.
  destruct c;
    unfold vod_body, clip_body, lrrmc_body, lastfm_body, roll_body,
           bingo_body, help_body;
    repeat tracing_step.
Qed.

(** ** The gate of the limiter *)

Lemma Qgtb_true (a b : Q) : Qgtb a b = true <-> (b < a)%Q.
Proof.
  unfold Qgtb. rewrite negb_true_iff, <- not_true_iff_false, Qle_bool_iff.
  split; [apply Qnot_le_lt | apply Qlt_not_le].
Qed.

Lemma Qgtb_false (a b : Q) : Qgtb a b = false <-> (a <= b)%Q.
Proof. unfold Qgtb. now rewrite negb_false_iff, Qle_bool_iff. Qed.

Lemma wrapper_proceeds (c : command) (f : M unit) (e : env) (st : store)
      (loop : nat) :
  rate_limited_loop st = Some loop ->
  (_spam_span (wrappers st c) < loop_time e loop - _spam_last (wrappers st c))%Q ->
  wrapper c f e st = f e (stamped st c (loop_time e loop)).
Proof.
  intros Hl Hgt. apply Qgtb_true in Hgt.
  unfold wrapper, bind, get, ask, set_spam_last. simpl.
  now rewrite Hl, Hgt.
Qed.

Lemma wrapper_suppresses (c : command) (f : M unit) (e : env) (st : store)
      (loop : nat) :
  rate_limited_loop st = Some loop ->
  (loop_time e loop - _spam_last (wrappers st c) <= _spam_span (wrappers st c))%Q ->
  wrapper c f e st = (Ok tt, traced st [suppressed c]).
Proof.
  intros Hl Hle. apply Qgtb_false in Hle.
  unfold wrapper, bind, get, ask, emit. simpl.
  now rewrite Hl, Hle.
Qed.

Lemma stamped_same (st : store) (c : command) (now : Q) :
  wrappers (stamped st c now) c =
  {| _spam_span := _spam_span (wrappers st c); _spam_last := now |}.
Proof.
  simpl. now rewrite (proj2 (command_eqb_eq c c) eq_refl).
Qed.

(** C2, as amended: a call that proceeds at [t0] stores [t0]; a later call
    on the same wrapper is suppressed as long as the elapsed time is at
    most the span (the wrapped method is not run, nothing is sent or asked
    of a collaborator, the call returns normally and only a warning is
    logged), and proceeds, storing the new reading, once the elapsed time
    is greater than the span. *)
Theorem limiter_window (self self' : instance) (c : command)
        (target nick target' nick' : pystr) (kw kw' : groupdict)
        (loop : nat) (e0 e1 : env) (st : store) :
  rate_limited_loop st = Some loop ->
  (_spam_span (wrappers st c) < loop_time e0 loop - _spam_last (wrappers st c))%Q ->
  let span := _spam_span (wrappers st c) in
  let t0 := loop_time e0 loop in
  let t := loop_time e1 loop in
  let st1 := snd (handle_command (self, c) target nick kw e0 st) in
  handle_command (self, c) target nick kw e0 st
    = func self c target nick kw e0 (stamped st c t0) /\
  _spam_last (wrappers st1 c) = t0 /\
  ((t - t0 <= span)%Q ->
   handle_command (self', c) target' nick' kw' e1 st1
     = (Ok tt, traced st1 [suppressed c])) /\
  ((span < t - t0)%Q ->
   handle_command (self', c) target' nick' kw' e1 st1
     = func self' c target' nick' kw' e1 (stamped st1 c t) /\
   _spam_last (wrappers (stamped st1 c t) c) = t).
Proof.
  intros Hl Hgt span t0 t st1.
  assert (H1 : handle_command (self, c) target nick kw e0 st
               = func self c target nick kw e0 (stamped st c t0)).
  { unfold handle_command; simpl. now apply wrapper_proceeds. }
  destruct (tracing_func self c target nick kw e0 (stamped st c t0))
    as [evs Hevs].
  assert (Hst1 : st1 = traced (stamped st c t0) evs).
  { unfold st1. now rewrite H1. }
  assert (Hw : wrappers st1 c
               = {| _spam_span := span; _spam_last := t0 |}).
  { rewrite Hst1. unfold traced. cbn [wrappers]. apply stamped_same. }
  assert (Hl1 : rate_limited_loop st1 = Some loop).
  { rewrite Hst1. exact Hl. }
  split; [exact H1|]. split; [now rewrite Hw|]. split.
  - intros Hle. unfold handle_command; simpl.
    apply wrapper_suppresses with (loop := loop); [exact Hl1|].
    rewrite Hw. exact Hle.
  - intros Hlt. split.
    + unfold handle_command; simpl.
      apply wrapper_proceeds; [exact Hl1|]. rewrite Hw. exact Hlt.
    + now rewrite stamped_same.
Qed.

Lemma limiter_window_witness :
  handle_command (demo_self, Bingo) (u "#lrr") (u "ann") [] (demo_env 100) demo_store
    = func demo_self Bingo (u "#lrr") (u "ann") [] (demo_env 100)
           (stamped demo_store Bingo 100) /\
  _spam_last
    (wrappers
       (snd (handle_command (demo_self, Bingo) (u "#lrr") (u "ann") []
                            (demo_env 100) demo_store)) Bingo) = 100%Q /\
  handle_command (demo_self, Bingo) (u "#lrr") (u "bob") [] (demo_env 110)
                 (snd (handle_command (demo_self, Bingo) (u "#lrr") (u "ann") []
                                      (demo_env 100) demo_store))
    = (Ok tt,
       traced (snd (handle_command (demo_self, Bingo) (u "#lrr") (u "ann") []
                                   (demo_env 100) demo_store))
              [suppressed Bingo]).
Proof.
  pose proof (@limiter_window demo_self demo_self Bingo (u "#lrr") (u "ann")
                (u "#lrr") (u "bob") [] [] 0%nat (demo_env 100)
                (demo_env 110) demo_store eq_refl eq_refl) as H.
  refine (conj (proj1 H) (conj (proj1 (proj2 H)) (proj1 (proj2 (proj2 H)) _))).
  discriminate.
Defined.

(** C2, the claim as stated fails at the boundary: with a span of 15, the
    call at 100 is let through and sends its message; the call at 115 has
    an elapsed time equal to the span and is suppressed, and the stored
    reading stays 100. *)
Lemma limiter_boundary_counterexample :
  existsb is_privmsg
    (trace (snd (handle_command (demo_self, Bingo) (u "#lrr") (u "ann") []
                                (demo_env 100) demo_store))) = true /\
  _spam_last
    (wrappers (snd (handle_command (demo_self, Bingo) (u "#lrr") (u "ann") []
                                   (demo_env 100) demo_store)) Bingo) = 100%Q /\
  Qle_bool default_span (115 - 100) = true /\
  handle_command (demo_self, Bingo) (u "#lrr") (u "bob") [] (demo_env 115)
    (snd (handle_command (demo_self, Bingo) (u "#lrr") (u "ann") []
                         (demo_env 100) demo_store))
  = (Ok tt,
     traced (snd (handle_command (demo_self, Bingo) (u "#lrr") (u "ann") []
                                 (demo_env 100) demo_store))
            [suppressed Bingo]).
Proof. repeat split. Qed.

(** C8, as amended: a freshly wrapped handler (span 15, last reading 0.0)
    under a limiter that has a loop lets its first call through exactly
    when the clock reads more than the span; at a reading of at most 15
    seconds the first call is suppressed. *)
Theorem first_call_gate (self : instance) (c : command) (target nick : pystr)
        (kw : groupdict) (loop : nat) (e : env) (st : store) :
  rate_limited_loop st = Some loop ->
  wrappers st c = wrappers class_store c ->
  ((default_span < loop_time e loop)%Q ->
   handle_command (self, c) target nick kw e st
     = func self c target nick kw e (stamped st c (loop_time e loop))) /\
  ((loop_time e loop <= default_span)%Q ->
   handle_command (self, c) target nick kw e st
     = (Ok tt, traced st [suppressed c])).
Proof.
  intros Hl Hw. unfold handle_command; simpl. split; intros H.
  - apply wrapper_proceeds; [exact Hl|].
    rewrite Hw. simpl. unfold default_span in *. lra.
  - apply wrapper_suppresses with (loop := loop); [exact Hl|].
    rewrite Hw. simpl. unfold default_span in *. lra.
Qed.

Lemma first_call_gate_witness :
  handle_command (demo_self, Help) (u "#lrr") (u "ann") [] (demo_env 16) demo_store
    = func demo_self Help (u "#lrr") (u "ann") [] (demo_env 16)
           (stamped demo_store Help 16).
Proof.
  refine (proj1 (@first_call_gate demo_self Help (u "#lrr") (u "ann") []
                   0%nat (demo_env 16) demo_store eq_refl eq_refl) _).
  reflexivity.
Defined.

(** C8, the claim as stated fails: on a clock that reads 10 seconds the
    very first call of a freshly wrapped handler is suppressed, nothing
    is sent. *)
Lemma first_call_counterexample :
  wrappers demo_store Help = {| _spam_span := 15; _spam_last := 0 |} /\
  handle_command (demo_self, Help) (u "#lrr") (u "ann") [] (demo_env 10) demo_store
    = (Ok tt, traced demo_store [suppressed Help]) /\
  handle_privmsg demo_self (u "ann") (u "#lrr") (u "!help") (demo_env 10) demo_store
    = (Ok tt, traced demo_store [got_command (u "help") (u "ann"); suppressed Help]).
Proof. repeat split. Qed.

(** ** Routing *)

(** C3: [get_route] walks the routes in the order of their registration
    and answers with the callback and the named groups of the first route
    whose pattern matches the whole command; of two routes that both
    match, the earlier one is chosen; with no matching route the answer is
    [None], and the dispatcher sends nothing. *)
Theorem get_route_first_match (e : env) (st : store) (cmd : pystr) :
  let rt := interp e in
  let rs := routes st in
  (forall r cb, routes (snd (add_route r cb e st)) = rs ++ [(r, cb)]) /\
  (forall cb m,
      get_route rt rs cmd = Some (cb, m) <->
      exists pre r post,
        rs = pre ++ (r, cb) :: post /\
        Forall (no_match rt cmd) pre /\
        fullmatch rt r cmd = Some m) /\
  (forall pre r1 cb1 m1 mid r2 cb2 m2 post,
      rs = pre ++ (r1, cb1) :: mid ++ (r2, cb2) :: post ->
      Forall (no_match rt cmd) pre ->
      fullmatch rt r1 cmd = Some m1 ->
      fullmatch rt r2 cmd = Some m2 ->
      get_route rt rs cmd = Some (cb1, m1)) /\
  (get_route rt rs cmd = None <-> Forall (no_match rt cmd) rs) /\
  (forall self nick target message,
      tl message = cmd ->
      get_route rt rs cmd = None ->
      exists evs,
        handle_privmsg self nick target message e st = (Ok tt, traced st evs) /\
        forallb (fun ev => negb (is_privmsg ev)) evs = true).
Proof.
  intros rt rs. repeat split.
  - apply get_route_some.
  - intros (pre & r & post & -> & Hpre & Hm). now apply get_route_first.
  - intros pre r1 cb1 m1 mid r2 cb2 m2 post -> Hpre H1 _.
    now apply get_route_first.
  - apply get_route_none.
  - apply get_route_none.
  - intros self nick target message Hcmd Hnone.
    destruct (negb (startswith message (prefix self))
              || (List.length message <? 2)%nat) eqn:Hc.
    + exists []. rewrite handle_privmsg_not_command by exact Hc.
      now rewrite traced_nil.
    + exists [got_command cmd nick].
      rewrite handle_privmsg_command by exact Hc.
      rewrite Hcmd. fold rt rs. now rewrite Hnone.
Qed.

(** ** The command table *)

Lemma table_routes (self : instance) (rt : runtime) (s : pystr) :
  get_route rt (table self) s =
  match get_route rt (map (fun kr => (snd kr, fst kr)) CMD_REGEX) s with
  | Some (c, m) => Some ((self, c), m)
  | None => None
  end.
Proof.
  unfold table. induction CMD_REGEX as [|[c r] l IH]; simpl; [reflexivity|].
  destruct (fullmatch rt r s); [reflexivity | exact IH].
Qed.

(** What [__init__] leaves behind: the limiter on the loop it was given,
    and the routes of the new instance after those already there. *)
Lemma init_store (cl : client) (loop : option nat) (pre : pystr)
      (ov : option pystr) (e : env) (st : store) :
  let self := new_instance cl loop pre ov in
  init cl loop pre ov e st =
  (Ok self,
   {| routes := routes st ++ table self;
      rate_limited_loop := loop;
      wrappers := wrappers st;
      trace := trace st
                 ++ [LogInfo "command" (u "Creating CommandHandler instance.")] |}).
Proof.
  intros self. unfold init, setup_routing, bind, emit, set_rate_limited_loop,
    add_route, ret, traced, table. simpl.
  repeat rewrite <- app_assoc. reflexivity.
Qed.

(** The pattern of [help] matches exactly the two texts "help" and the
    ambulance emoji, and these are the only commands routed to the help
    handler without arguments. *)
Lemma help_route_exact (rt : runtime) (self : instance) (s : pystr) :
  (fullmatch rt re_help s <> None <-> s = u "help" \/ s = ambulance) /\
  (get_route rt (table self) s = Some ((self, Help), []) <->
   s = u "help" \/ s = ambulance).
Proof.
  split; [apply help_fullmatch|]. split.
  - intros H. apply (help_fullmatch rt).
    apply get_route_some in H. destruct H as (pre & r & post & Ht & _ & Hm).
    assert (Hin : In (r, (self, Help)) (table self)).
    { rewrite Ht. apply in_or_app. right. now left. }
    unfold table in Hin. simpl in Hin.
    repeat (destruct Hin as [Hin|Hin]; [try discriminate Hin|]);
      [|contradiction].
    injection Hin as <-. rewrite Hm. discriminate.
  - intros [-> | ->]; rewrite table_routes; vm_compute; reflexivity.
Qed.

(** C9, the claim as stated fails: a text that begins with "help" and a
    text that ends in the emoji are matched by no route. *)
Lemma help_pattern_counterexample :
  fullmatch plain_rt re_help (u "helpme") = None /\
  fullmatch plain_rt re_help (u "x" ++ ambulance) = None /\
  get_route plain_rt (routes demo_store) (u "helpme") = None /\
  get_route plain_rt (routes demo_store) (u "x" ++ ambulance) = None.
Proof. repeat split. Qed.

(** C10: the routes and the limiter belong to the class.  After a second
    [CommandHandler] has been built the one list of routes holds the
    routes of the first instance followed by those of the second, two for
    every command; every command resolves to the method bound to the
    first instance, whichever instance received the message; the limiter
    runs on the loop given to the second constructor, and a call let
    through on one instance closes the gate for the other. *)
Theorem routes_shared_by_instances
        (ca cb : client) (la lb : option nat) (pa pb : pystr)
        (oa ob : option pystr) (ea eb : env) :
  let a := new_instance ca la pa oa in
  let b := new_instance cb lb pb ob in
  let st1 := snd (init ca la pa oa ea class_store) in
  let st2 := snd (init cb lb pb ob eb st1) in
  fst (init ca la pa oa ea class_store) = Ok a /\
  fst (init cb lb pb ob eb st1) = Ok b /\
  routes st1 = table a /\
  routes st2 = table a ++ table b /\
  (forall c,
      map snd (filter (fun r => command_eqb (snd (snd r)) c) (routes st2))
      = [(a, c); (b, c)]) /\
  (forall rt s, get_route rt (routes st2) s = get_route rt (table a) s) /\
  (forall rt s cb' m,
      get_route rt (routes st2) s = Some (cb', m) -> fst cb' = a) /\
  (forall nick target message e c kw,
      negb (startswith message (prefix b))
        || (List.length message <? 2)%nat = false ->
      get_route (interp e) (table a) (tl message) = Some ((a, c), kw) ->
      handle_privmsg b nick target message e st2
      = handle_command (a, c) (reply_target b nick target) nick kw e
                       (traced st2 [got_command (tl message) nick])) /\
  rate_limited_loop st2 = lb /\
  (forall c, wrappers st2 c = wrappers class_store c) /\
  (forall loop c target nick kw e,
      lb = Some loop ->
      (default_span < loop_time e loop)%Q ->
      let st3 := snd (handle_command (b, c) target nick kw e st2) in
      handle_command (b, c) target nick kw e st2
        = func b c target nick kw e (stamped st2 c (loop_time e loop)) /\
      handle_command (a, c) target nick kw e st3
        = (Ok tt, traced st3 [suppressed c])).
Proof.
  intros a b st1 st2.
  assert (H1 : init ca la pa oa ea class_store
               = (Ok a, {| routes := table a;
                           rate_limited_loop := la;
                           wrappers := wrappers class_store;
                           trace := [LogInfo "command"
                                       (u "Creating CommandHandler instance.")] |})).
  { now rewrite init_store. }
  assert (H2 : init cb lb pb ob eb st1
               = (Ok b, {| routes := table a ++ table b;
                           rate_limited_loop := lb;
                           wrappers := wrappers class_store;
                           trace := trace st1
                             ++ [LogInfo "command"
                                   (u "Creating CommandHandler instance.")] |})).
  { rewrite init_store. unfold st1. now rewrite H1. }
  assert (Hr : forall rt s, get_route rt (table a ++ table b) s
                            = get_route rt (table a) s).
  { intros rt s. rewrite get_route_app, !table_routes.
    now destruct (get_route rt (map (fun kr => (snd kr, fst kr)) CMD_REGEX) s)
      as [[c m]|]. }
  assert (Hst2 : routes st2 = table a ++ table b)
    by (unfold st2; now rewrite H2).
  assert (Hl2 : rate_limited_loop st2 = lb) by (unfold st2; now rewrite H2).
  assert (Hw2 : forall c, wrappers st2 c = wrappers class_store c)
    by (intros c; unfold st2; now rewrite H2).
  split; [now rewrite H1|]. split; [now rewrite H2|].
  split; [unfold st1; now rewrite H1|]. split; [exact Hst2|].
  split; [intros c; rewrite Hst2; destruct c; reflexivity|].
  split; [intros rt s; rewrite Hst2; apply Hr|].
  split.
  { intros rt s cb' m. rewrite Hst2, Hr, table_routes.
    destruct (get_route rt (map (fun kr => (snd kr, fst kr)) CMD_REGEX) s)
      as [[c m']|]; [|discriminate].
    intros H. now injection H as <- _. }
  split.
  { intros nick target message e c kw Hc Hroute.
    rewrite handle_privmsg_command by exact Hc.
    now rewrite Hst2, Hr, Hroute. }
  split; [exact Hl2|]. split; [exact Hw2|].
  intros loop c target nick kw e Hlb Hgt st3.
  assert (Hloop : rate_limited_loop st2 = Some loop) by congruence.
  assert (Hp : handle_command (b, c) target nick kw e st2
               = func b c target nick kw e (stamped st2 c (loop_time e loop))).
  { unfold handle_command; simpl. apply wrapper_proceeds; [exact Hloop|].
    rewrite Hw2. cbn [class_store wrappers _spam_span _spam_last].
    unfold default_span in *. lra. }
  split; [exact Hp|].
  destruct (tracing_func b c target nick kw e (stamped st2 c (loop_time e loop)))
    as [evs Hevs].
  assert (Hst3 : st3 = traced (stamped st2 c (loop_time e loop)) evs).
  { unfold st3. now rewrite Hp. }
  unfold handle_command; simpl.
  apply wrapper_suppresses with (loop := loop).
  - rewrite Hst3. exact Hloop.
  - rewrite Hst3. unfold traced. cbn [wrappers]. rewrite stamped_same.
    cbn [_spam_span _spam_last]. rewrite Hw2.
    cbn [class_store wrappers _spam_span]. unfold default_span. lra.
Qed.

(** ** Optional groups *)

Lemma star_class_all (p : codepoint -> bool) (s : pystr) (pos : nat)
      (g : captures) (k : cont) :
  forallb p s = true ->
  (forall pos' c s' g', k pos' (c :: s') g' = None) ->
  star_class p pos s g k = k (pos + List.length s)%nat [] g.
Proof.
  intros Hall Hk. revert pos. induction s as [|c s IH]; intros pos; simpl.
  - now rewrite Nat.add_0_r.
  - simpl in Hall. apply andb_prop in Hall as [Hc Hs]. rewrite Hc.
    rewrite (IH Hs), Nat.add_succ_r. simpl.
    destruct (k (S (pos + List.length s)) [] g); [reflexivity | apply Hk].
Qed.

Lemma ascii_digit_small (c : codepoint) :
  ascii_digit c = true -> (c <? 128)%N = true.
Proof.
  intros H. unfold ascii_digit, in_range in H. apply andb_prop in H as [_ H].
  apply N.leb_le in H. apply N.ltb_lt. lia.
Qed.

Lemma ascii_digit_in_class (rt : runtime) (ao : bool) (c : codepoint) :
  ascii_digit c = true -> in_class rt (Digit ao) c = true.
Proof.
  intros H. unfold in_class. now rewrite (ascii_digit_small c H).
Qed.

(** [roll d<sides>]: the count is left out, the sides are captured. *)
Lemma roll_sides_only (rt : runtime) (ds : pystr) :
  ds <> [] ->
  forallb ascii_digit ds = true ->
  get_route rt (map (fun kr => (snd kr, fst kr)) CMD_REGEX) (u "roll d" ++ ds)
  = Some (Roll, [("count", None); ("sides", Some ds)]).
Proof.
  intros Hne Hd. destruct ds as [|c ds]; [congruence|].
  simpl in Hd. apply andb_prop in Hd as [Hc Hds].
  assert (Hall : forallb (in_class rt (Digit false)) ds = true).
  { apply forallb_forall. intros x Hx. apply ascii_digit_in_class.
    now apply (proj1 (forallb_forall _ _) Hds). }
  cbn. unfold fullmatch. cbn.
  rewrite (ascii_digit_small c Hc), Hc.
  rewrite star_class_all; [|exact Hall|reflexivity].
  replace (7 + List.length ds - 6)%nat with (S (List.length ds)) by lia.
  cbn. now rewrite firstn_all.
Qed.

(** C7, as amended: a command that leaves out the optional part of its
    pattern still matches and raises no error; [groupdict()] gives [None]
    for each group that took no part, and the handler is called with that
    [None].  For [roll] this is the declared default of [count] and
    [sides]; for [lrrmc] the handler receives [server=None], not the
    declared "vanilla", and yet does what it does for "vanilla", because
    the lookup of the server falls back to the vanilla entry. *)
Theorem optional_groups_omitted (rt : runtime) (self : instance)
        (target nick : pystr) (e : env) (st : store) :
  get_route rt (table self) (u "lrrmc")
    = Some ((self, Lrrmc), [("server", None)]) /\
  get_route rt (table self) pick
    = Some ((self, Lrrmc), [("server", None)]) /\
  get_route rt (table self) (u "roll")
    = Some ((self, Roll), [("count", None); ("sides", None)]) /\
  get_route rt (table self) die
    = Some ((self, Roll), [("count", None); ("sides", None)]) /\
  (forall ds,
      ds <> [] ->
      forallb ascii_digit ds = true ->
      get_route rt (table self) (u "roll d" ++ ds)
        = Some ((self, Roll), [("count", None); ("sides", Some ds)])) /\
  check_kwargs Lrrmc [("server", None)] e st = (Ok tt, st) /\
  check_kwargs Roll [("count", None); ("sides", None)] e st = (Ok tt, st) /\
  bound Lrrmc "server" [("server", None)] = None /\
  bound Roll "count" [("count", None); ("sides", None)] = None /\
  bound Roll "sides" [("count", None); ("sides", None)] = None /\
  params Roll = [("count", None); ("sides", None)] /\
  func self Lrrmc target nick [("server", None)] e st
    = func self Lrrmc target nick [("server", Some (u "vanilla"))] e st /\
  func self Lrrmc target nick [("server", None)] e st
    = func self Lrrmc target nick [] e st.
Proof.
  repeat split; try (rewrite table_routes; vm_compute; reflexivity).
  intros ds Hne Hd. rewrite table_routes. now rewrite roll_sides_only.
Qed.

(** C7, the claim as stated fails for [lrrmc]: the bare command reaches
    the handler with [server=None], while the declared default of the
    parameter is "vanilla". *)
Lemma lrrmc_default_counterexample :
  get_route plain_rt (routes demo_store) (u "lrrmc")
    = Some ((demo_self, Lrrmc), [("server", None)]) /\
  lookup "server" (params Lrrmc) = Some (Some (u "vanilla")) /\
  bound Lrrmc "server" [("server", None)] = None.
Proof. repeat split. Qed.

(** ** Faults *)

(** A decorated handler changes neither the routes nor the limiter's
    loop. *)
Lemma handle_command_frame (cb : bound_method) (target nick : pystr)
      (kw : groupdict) (e : env) (st : store) :
  routes (snd (handle_command cb target nick kw e st)) = routes st /\
  rate_limited_loop (snd (handle_command cb target nick kw e st))
  = rate_limited_loop st.
Proof.
  destruct cb as [self c]. unfold handle_command, wrapper, bind, get, ask.
  simpl. destruct (rate_limited_loop st) as [loop|] eqn:Hl; simpl.
  - destruct (Qgtb _ _); simpl.
    + destruct (tracing_func self c target nick kw e
                  (stamped st c (loop_time e loop))) as [evs ->].
      now split.
    + now split.
  - now split.
Qed.

(** C4: with nothing to list, [next(it, None)] is [None] and unpacking it
    for [format] raises [TypeError]; the handler sends nothing and the
    exception leaves [handle_privmsg]. *)
Theorem single_result_empty_raises (self : instance) (target nick : pystr)
        (e : env) (st : store) :
  (get_broadcasts e 27132299 1 = Ok [] ->
   func self Vod target nick [] e st
   = (Raise TypeError, traced st [Collab (CallGetBroadcasts 27132299 1)])) /\
  (get_top_clips e (u "loadingreadyrun") 1 = Ok [] ->
   func self Clip target nick [] e st
   = (Raise TypeError,
      traced st [Collab (CallGetTopClips (u "loadingreadyrun") 1)])) /\
  fst (handle_privmsg demo_self (u "ann") (u "#lrr") (u "!vod")
                      (demo_env 100) demo_store) = Raise TypeError /\
  fst (handle_privmsg demo_self (u "ann") (u "#lrr") (u "!clip")
                      (demo_env 100) demo_store) = Raise TypeError /\
  existsb is_privmsg
          (trace (snd (handle_privmsg demo_self (u "ann") (u "#lrr") (u "!vod")
                                      (demo_env 100) demo_store))) = false /\
  existsb is_privmsg
          (trace (snd (handle_privmsg demo_self (u "ann") (u "#lrr") (u "!clip")
                                      (demo_env 100) demo_store))) = false.
Proof.
  repeat split.
  - intros H. unfold func, vod_body, await, check_kwargs, bind, emit, ask,
      lift, ret; simpl. rewrite H. unfold traced; simpl.
    now rewrite <- ?app_assoc.
  - intros H. unfold func, clip_body, await, check_kwargs, bind, emit, ask,
      lift, ret; simpl. rewrite H. unfold traced; simpl.
    now rewrite <- ?app_assoc.
Qed.

(** C1, as amended: [handle_privmsg] has no handler for exceptions; when
    the method it resolved raises, the exception leaves [handle_privmsg]
    unchanged and nothing is logged for it.  The routes and the limiter's
    loop are as before the event. *)
Theorem handle_privmsg_propagates (self : instance)
        (nick target message : pystr) (e : env) (st st' : store)
        (cb : bound_method) (kw : groupdict) (x : exn) :
  negb (startswith message (prefix self))
    || (List.length message <? 2)%nat = false ->
  get_route (interp e) (routes st) (tl message) = Some (cb, kw) ->
  handle_command cb (reply_target self nick target) nick kw e
                 (traced st [got_command (tl message) nick]) = (Raise x, st') ->
  handle_privmsg self nick target message e st = (Raise x, st') /\
  routes st' = routes st /\
  rate_limited_loop st' = rate_limited_loop st.
Proof.
  intros Hc Hroute Hraise.
  rewrite handle_privmsg_command by exact Hc. rewrite Hroute.
  split; [exact Hraise|].
  pose proof (handle_command_frame cb (reply_target self nick target) nick kw e
                (traced st [got_command (tl message) nick])) as [Hr Hl].
  rewrite Hraise in Hr, Hl. simpl in Hr, Hl. now split.
Qed.

Lemma handle_privmsg_propagates_witness :
  handle_privmsg demo_self (u "ann") (u "#lrr") (u "!vod") (demo_env 100)
                 demo_store
  = (Raise TypeError,
     traced (stamped demo_store Vod 100)
            [got_command (u "vod") (u "ann");
             Collab (CallGetBroadcasts 27132299 1)]).
Proof.
  exact (proj1 (@handle_privmsg_propagates demo_self (u "ann") (u "#lrr")
                  (u "!vod") (demo_env 100) demo_store _ (demo_self, Vod) []
                  TypeError eq_refl eq_refl eq_refl)).
Defined.

(** C1, the claim as stated fails: the command resolves to the [vod]
    handler, the handler raises [TypeError], and the dispatch ends with
    that exception instead of returning. *)
Lemma handle_privmsg_counterexample :
  get_route plain_rt (routes demo_store) (u "vod") = Some ((demo_self, Vod), []) /\
  fst (handle_command (demo_self, Vod) (u "#lrr") (u "ann") [] (demo_env 100)
                      (traced demo_store [got_command (u "vod") (u "ann")]))
  = Raise TypeError /\
  fst (handle_privmsg demo_self (u "ann") (u "#lrr") (u "!vod") (demo_env 100)
                      demo_store) = Raise TypeError.
Proof. repeat split. Qed.

(** ** Lookups *)

Lemma lacks_get (d : list (pystr * pyval)) (k : pystr) :
  lacks d k ->
  exists v, dict_get (VDict d) k = Ok v /\ truthy v = false.
Proof.
  unfold lacks, dict_get. destruct (assoc k d) as [v|].
  - intros H. now exists v.
  - intros _. now exists VNone.
Qed.

Lemma assoc_truthy (d : list (pystr * pyval)) (k : pystr) (v : pyval) :
  assoc k d = Some v -> truthy (VDict d) = true.
Proof. destruct d; [discriminate | reflexivity]. Qed.

Ltac run_body :=
  unfold func, lastfm_body, lrrmc_body, await, privmsg, check_kwargs,
    try_except, bind, emit, ask, lift, ret, raise;
  cbn [params forallb existsb fst snd String.eqb Ascii.eqb Bool.eqb andb orb
       bound lookup].

(** C5: what the last.fm handler sends.  Without user information: that
    it cannot query the information for the requested user.  With a name
    but neither track nor artist: that it cannot query the track for that
    name.  With name, track and artist: who is listening, or last
    listened, to what.  Each time the collaborator is asked once and one
    message goes out. *)
Theorem lastfm_messages (self : instance) (target nick usr : pystr)
        (e : env) (st : store) :
  let cid := client_id (client_of self) in
  let asked := Collab (CallGetLastfmInfo (Some usr)) in
  let run := func self Lastfm target nick [("user", Some usr)] e st in
  (get_lastfm_info e (Some usr) = Ok VNone ->
   run = (Ok tt,
          traced st
            [asked;
             Privmsg cid target
               (u "Cannot query last.fm user information for " ++ usr ++ u ".")])) /\
  (forall d n,
      get_lastfm_info e (Some usr) = Ok (VDict d) ->
      assoc (u "name") d = Some (VStr n) ->
      lacks d (u "track") ->
      lacks d (u "artist") ->
      run = (Ok tt,
             traced st
               [asked;
                Privmsg cid target
                  (u "Cannot query most recently played track for " ++ n ++ u ".")])) /\
  (forall d X live T A,
      get_lastfm_info e (Some usr) = Ok (VDict d) ->
      assoc (u "name") d = Some (VStr X) ->
      assoc (u "live") d = Some (VBool live) ->
      assoc (u "track") d = Some (VStr T) ->
      assoc (u "artist") d = Some (VStr A) ->
      T <> [] \/ A <> [] ->
      run = (Ok tt,
             traced st
               [asked;
                Privmsg cid target
                  (X ++ u " "
                     ++ (if live then u "is listening" else u "last listened")
                     ++ u " to " ++ quote ++ T ++ quote ++ u " by " ++ A)])).
Proof.
  intros cid asked run. unfold run. repeat split.
  - intros H. run_body. rewrite H. cbn [truthy negb].
    unfold traced; simpl. now rewrite <- app_assoc.
  - intros d n H Hn Ht Ha. run_body. rewrite H.
    rewrite (@assoc_truthy _ _ _ Hn). cbn [negb].
    destruct (@lacks_get _ _ Ht) as (vt & Hgt & Htt).
    destruct (@lacks_get _ _ Ha) as (va & Hga & Hta).
    rewrite Hgt, Hga. unfold dict_get. rewrite Hn.
    destruct (assoc (u "live") d); rewrite Htt, Hta; cbn [negb andb py_str];
      unfold traced; simpl; now rewrite <- app_assoc.
  - intros d X live T A H Hn Hl Ht Ha Hne. run_body. rewrite H.
    rewrite (@assoc_truthy _ _ _ Hn). cbn [negb].
    unfold dict_get. rewrite Hn, Hl, Ht, Ha.
    assert (Hb : negb (truthy (VStr T)) && negb (truthy (VStr A)) = false).
    { destruct T, A; simpl; try reflexivity. destruct Hne; congruence. }
    rewrite Hb. cbn [truthy py_str].
    unfold traced; simpl; now rewrite <- app_assoc.
Qed.

(** The full answer of last.fm, end to end. *)
Example lastfm_listening_example :
  handle_privmsg demo_self (u "ann") (u "pump19") (u "!last.fm X")
    {| interp := plain_rt;
       loop_time := fun _ => 100%Q;
       get_broadcasts := fun _ _ => Ok [];
       get_top_clips := fun _ _ => Ok [];
       wait_for_get_status := fun _ _ _ => Raise TimeoutError;
       get_lastfm_info := fun _ =>
         Ok (VDict [(u "name", VStr (u "X")); (u "live", VBool true);
                    (u "track", VStr (u "T")); (u "artist", VStr (u "A"))]) |}
    demo_store
  = (Ok tt,
     traced (stamped demo_store Lastfm 100)
       [got_command (u "last.fm X") (u "ann");
        Collab (CallGetLastfmInfo (Some (u "X")));
        Privmsg 1 (u "ann")
          (u "X is listening to " ++ quote ++ u "T" ++ quote ++ u " by A")]).
Proof. reflexivity. Qed.

Lemma getitem_errors (v : pyval) (k : pystr) (x : exn) :
  getitem v k = Raise x -> is_key_or_type x = true.
Proof.
  unfold getitem. destruct v; try (intros H; now injection H as <-).
  destruct (assoc k d); [discriminate|]. intros H. now injection H as <-.
Qed.

(** C6: the probe is awaited under a deadline of two seconds.  When the
    deadline passes, or the probe has nothing to report, the handler still
    sends the message with the server's name, host, port and info and the
    status "Unknown".  When the probe reports a status, whatever its
    shape, the handler sends the message with the counts, the placeholder
    standing for both when either cannot be read.  In each case the
    handler returns normally with one message sent. *)
Theorem lrrmc_status_message (self : instance) (target nick : pystr)
        (alias : option pystr) (e : env) (st : store) :
  let srv := servers_get alias in
  let cid := client_id (client_of self) in
  let asked := Collab (CallGetStatus (host srv) (port srv) 2) in
  let answer := wait_for_get_status e (host srv) (port srv) 2 in
  let run := func self Lrrmc target nick [("server", alias)] e st in
  let unknown :=
    u "Join " ++ name srv ++ u " on " ++ host srv ++ u ":"
      ++ str_of_Z (port srv) ++ u "! " ++ info srv
      ++ u " Current Status: Unknown" in
  deadline = 2%Q /\
  (answer = Raise TimeoutError ->
   run = (Ok tt, traced st [asked; Privmsg cid target unknown])) /\
  (forall v,
      answer = Ok v ->
      truthy v = false ->
      run = (Ok tt, traced st [asked; Privmsg cid target unknown])) /\
  (forall v,
      answer = Ok v ->
      truthy v = true ->
      run = (Ok tt,
             traced st
               [asked;
                Privmsg cid target
                  (base_msg srv
                     (u "Online - " ++ fst (counts (interp e) v) ++ u "/"
                        ++ snd (counts (interp e) v) ++ u " players"))])) /\
  (forall v x,
      getitem v (u "players") = Raise x ->
      counts (interp e) v = (u "?", u "?")) /\
  (forall v players x,
      getitem v (u "players") = Ok players ->
      getitem players (u "online") = Raise x
        \/ getitem players (u "max") = Raise x ->
      counts (interp e) v = (u "?", u "?")) /\
  (forall v players nowp maxp,
      getitem v (u "players") = Ok players ->
      getitem players (u "online") = Ok nowp ->
      getitem players (u "max") = Ok maxp ->
      counts (interp e) v = (py_str (interp e) nowp, py_str (interp e) maxp)).
Proof.
  intros srv cid asked answer run unknown.
  unfold run, answer, deadline. repeat split.
  - intros H. run_body. unfold deadline. fold srv. rewrite H.
    cbn [is_timeout truthy negb].
    unfold traced; simpl. now rewrite <- app_assoc.
  - intros v H Hv. run_body. unfold deadline. fold srv. rewrite H, Hv. cbn [negb].
    unfold traced; simpl. now rewrite <- app_assoc.
  - intros v H Hv. run_body. unfold deadline. fold srv. rewrite H, Hv. cbn [negb].
    unfold counts.
    destruct (getitem v (u "players")) as [players|x] eqn:Hp.
    + destruct (getitem players (u "online")) as [nowp|x] eqn:Ho.
      * destruct (getitem players (u "max")) as [maxp|x] eqn:Hm.
        -- unfold traced; simpl. now rewrite <- app_assoc.
        -- rewrite (getitem_errors _ _ Hm).
           unfold traced; simpl. now rewrite <- app_assoc.
      * rewrite (getitem_errors _ _ Ho).
        destruct (getitem players (u "max"));
          unfold traced; simpl; now rewrite <- app_assoc.
    + rewrite (getitem_errors _ _ Hp).
      unfold traced; simpl. now rewrite <- app_assoc.
  - intros v x H. unfold counts. now rewrite H.
  - intros v players x Hp [H|H]; unfold counts; rewrite Hp, H;
      [reflexivity|].
    now destruct (getitem players (u "online")).
  - intros v players nowp maxp Hp Ho Hm. unfold counts. now rewrite Hp, Ho, Hm.
Qed.

(** The message sent when the probe of the vanilla server runs into its
    deadline. *)
Example lrrmc_timeout_example :
  handle_privmsg demo_self (u "ann") (u "#lrr") (u "!lrrmc") (demo_env 100)
                 demo_store
  = (Ok tt,
     traced (stamped demo_store Lrrmc 100)
       [got_command (u "lrrmc") (u "ann");
        Collab (CallGetStatus (u "minecraft.darkmorford.net") 25565 2);
        Privmsg 1 (u "#lrr")
          (u "Join the LRR Vanilla Minecraft Server on minecraft.darkmorford.net:25565! Check http://minecraft.darkmorford.net:8123/ for the dynamic map. Current Status: Unknown")]).
Proof. reflexivity. Qed.

(** * Further properties *)

Unset Implicit Arguments.

(** ** Character classes and repetition *)

Lemma ascii_word_small (c : codepoint) :
  ascii_word c = true -> (c <? 128)%N = true.
Proof.
  unfold ascii_word, ascii_digit, in_range. intros H. apply N.ltb_lt.
  repeat (apply orb_prop in H as [H|H]);
    try (apply andb_prop in H as [_ H]; apply N.leb_le in H; lia).
  apply N.eqb_eq in H. lia.
Qed.

(** Under [re.ASCII], [\w] is the ASCII class whatever the Unicode tables
    say. *)
Lemma word_ascii_class (rt : runtime) (c : codepoint) :
  in_class rt (Word true) c = ascii_word c.
Proof.
  unfold in_class. destruct (c <? 128)%N eqn:E; [reflexivity|].
  simpl. destruct (ascii_word c) eqn:W; [|reflexivity].
  apply ascii_word_small in W. congruence.
Qed.

Lemma forallb_word_ascii (rt : runtime) (w : pystr) :
  forallb (in_class rt (Word true)) w = forallb ascii_word w.
Proof.
  induction w as [|c w IH]; cbn [forallb]; [reflexivity|].
  now rewrite word_ascii_class, IH.
Qed.

(** What a successful greedy repetition has consumed. *)
Lemma star_class_inv (p : codepoint -> bool) (s : pystr) (pos : nat)
      (g : captures) (k : cont) (r : captures) :
  star_class p pos s g k = Some r ->
  exists s1 s2,
    s = s1 ++ s2 /\ forallb p s1 = true /\
    k (pos + List.length s1)%nat s2 g = Some r.
Proof.
  revert pos. induction s as [|c s IH]; intros pos; simpl.
  - intros H. exists [], []. simpl. now rewrite Nat.add_0_r.
  - destruct (p c) eqn:Hc.
    + destruct (star_class p (S pos) s g k) as [r'|] eqn:E.
      * intros H. injection H as ->.
        destruct (IH _ E) as (s1 & s2 & -> & Hall & Hk).
        exists (c :: s1), s2. simpl. rewrite Hc, Hall.
        now rewrite Nat.add_succ_r.
      * intros H. exists [], (c :: s). simpl. now rewrite Nat.add_0_r.
    + intros H. exists [], (c :: s). simpl. now rewrite Nat.add_0_r.
Qed.

Lemma plus_class_inv (p : codepoint -> bool) (s : pystr) (pos : nat)
      (g : captures) (k : cont) (r : captures) :
  plus_class p pos s g k = Some r ->
  exists s1 s2,
    s = s1 ++ s2 /\ s1 <> [] /\ forallb p s1 = true /\
    k (pos + List.length s1)%nat s2 g = Some r.
Proof.
  unfold plus_class. destruct s as [|c s]; [discriminate|].
  destruct (p c) eqn:Hc; [|discriminate].
  intros H. destruct (star_class_inv _ _ _ _ _ _ H) as (s1 & s2 & -> & Hall & Hk).
  exists (c :: s1), s2. simpl. rewrite Hc, Hall.
  rewrite Nat.add_succ_r. repeat split; [discriminate | exact Hk].
Qed.

Lemma plus_class_all (p : codepoint -> bool) (s : pystr) (pos : nat)
      (g : captures) (k : cont) :
  s <> [] ->
  forallb p s = true ->
  (forall pos' c s' g', k pos' (c :: s') g' = None) ->
  plus_class p pos s g k = k (pos + List.length s)%nat [] g.
Proof.
  intros Hne Hall Hk. destruct s as [|c s]; [congruence|].
  simpl in *. apply andb_prop in Hall as [Hc Hs]. rewrite Hc.
  rewrite star_class_all by assumption. now rewrite Nat.add_succ_r.
Qed.

(** ** Pieces of the command patterns *)

Lemma fullmatch_finish (rt : runtime) (r : regex) (s : pystr) :
  fullmatch rt r s =
  match run rt r 0 s [] finish with
  | Some g => Some (groupdict_of r g)
  | None => None
  end.
Proof. reflexivity. Qed.

Lemma finish_at_end : at_end_only finish.
Proof. intros pos c s g. reflexivity. Qed.

(** [$] before the end of the pattern goes on only at the end. *)
Lemma eol_at_end (rt : runtime) (k : cont) :
  at_end_only k ->
  at_end_only (fun pos s g => run rt (Seq Eol (Lit [])) pos s g k).
Proof.
  intros Hk pos c s g. cbn [run lit_prefix].
  destruct (at_eol (c :: s)); [apply Hk | reflexivity].
Qed.

Lemma lit_nil_at_end (rt : runtime) (k : cont) :
  at_end_only k ->
  at_end_only (fun pos s g => run rt (Lit []) pos s g k).
Proof. intros Hk pos c s g. cbn [run lit_prefix]. apply Hk. Qed.

(** A pattern that begins with one of two literals, neither of which can
    stand where the other does. *)
Lemma alt_heads (rt : runtime) (l1 l2 : pystr) (rest : regex) (pos : nat)
      (s : pystr) (g : captures) (k : cont) (r : captures) :
  (forall x, lit_prefix l2 (l1 ++ x) = None) ->
  (forall x, lit_prefix l1 (l2 ++ x) = None) ->
  run rt (Seq (Alt (Lit l1) (Lit l2)) rest) pos s g k = Some r <->
  exists l s',
    (l = l1 \/ l = l2) /\ s = l ++ s' /\
    run rt rest (pos + List.length l)%nat s' g k = Some r.
Proof.
  intros H21 H12. cbn [run]. split.
  - destruct (lit_prefix l1 s) as [s1|] eqn:E1.
    + apply lit_prefix_app in E1. subst s.
      destruct (run rt rest (pos + List.length l1) s1 g k) as [r1|] eqn:R1.
      * intros H. injection H as ->. exists l1, s1. auto.
      * now rewrite H21.
    + destruct (lit_prefix l2 s) as [s2|] eqn:E2; [|discriminate].
      apply lit_prefix_app in E2. subst s.
      intros H. exists l2, s2. auto.
  - intros (l & s' & [-> | ->] & -> & H).
    + rewrite (proj2 (@lit_prefix_app l1 (l1 ++ s') s') eq_refl). now rewrite H.
    + rewrite H12.
      now rewrite (proj2 (@lit_prefix_app l2 (l2 ++ s') s') eq_refl).
Qed.

(** A named group of one or more characters of a class, up to the end of
    the subject. *)
Lemma group_plus_end (rt : runtime) (name : string) (c : cclass) (pos : nat)
      (w : pystr) (g : captures) (k : cont) (r : captures) :
  at_end_only k ->
  run rt (Group name (Plus c)) pos w g k = Some r <->
  w <> [] /\ forallb (in_class rt c) w = true /\
  k (pos + List.length w)%nat [] ((name, w) :: g) = Some r.
Proof.
  intros Hk. cbn [run]. split.
  - intros H. apply plus_class_inv in H.
    destruct H as (s1 & s2 & -> & Hne & Hall & H).
    destruct s2 as [|c2 s2]; [|now rewrite Hk in H].
    rewrite app_nil_r in *.
    replace (pos + List.length s1 - pos)%nat with (List.length s1) in H by lia.
    rewrite firstn_all in H. auto.
  - intros (Hne & Hall & H).
    rewrite plus_class_all; [| exact Hne | exact Hall | intros; apply Hk].
    replace (pos + List.length w - pos)%nat with (List.length w) by lia.
    now rewrite firstn_all.
Qed.

Lemma bol_start (rt : runtime) (r : regex) (s : pystr) (g : captures)
      (k : cont) :
  run rt (Seq Bol r) 0 s g k = run rt r 0 s g k.
Proof. reflexivity. Qed.

Lemma run_seq (rt : runtime) (a b : regex) (pos : nat) (s : pystr)
      (g : captures) (k : cont) :
  run rt (Seq a b) pos s g k
  = run rt a pos s g (fun pos' s' g' => run rt b pos' s' g' k).
Proof. reflexivity. Qed.

Lemma run_lit (rt : runtime) (l : pystr) (pos : nat) (s : pystr)
      (g : captures) (k : cont) :
  run rt (Lit l) pos (l ++ s) g k = k (pos + List.length l)%nat s g.
Proof.
  cbn [run]. now rewrite (proj2 (@lit_prefix_app l (l ++ s) s) eq_refl).
Qed.

Lemma run_lit_inv (rt : runtime) (l : pystr) (pos : nat) (s : pystr)
      (g : captures) (k : cont) (r : captures) :
  run rt (Lit l) pos s g k = Some r ->
  exists s', s = l ++ s' /\ k (pos + List.length l)%nat s' g = Some r.
Proof.
  cbn [run]. destruct (lit_prefix l s) as [s'|] eqn:E; [|discriminate].
  apply lit_prefix_app in E. intros H. now exists s'.
Qed.

(** A route of the table was registered for its command's pattern. *)
Lemma table_pattern (self : instance) (r : regex) (c : command) :
  In (r, (self, c)) (table self) -> In (c, r) CMD_REGEX.
Proof.
  unfold table. intros H. apply in_map_iff in H.
  destruct H as ([c' r'] & Heq & Hin). simpl in Heq.
  now injection Heq as -> ->.
Qed.

Lemma get_route_pattern (rt : runtime) (self : instance) (s : pystr)
      (c : command) (m : groupdict) :
  get_route rt (table self) s = Some ((self, c), m) ->
  exists r, In (c, r) CMD_REGEX /\ fullmatch rt r s = Some m.
Proof.
  intros H. apply get_route_some in H.
  destruct H as (pre & r & post & Ht & _ & Hm).
  exists r. split; [|exact Hm].
  apply (table_pattern self r c). rewrite Ht. apply in_or_app. right. now left.
Qed.

(** ** The last.fm command *)

Lemma lastfm_fullmatch (rt : runtime) (s : pystr) (m : groupdict) :
  fullmatch rt re_lastfm s = Some m <->
  exists w,
    w <> [] /\ forallb ascii_word w = true /\
    (s = u "last.fm " ++ w \/ s = note ++ u " " ++ w) /\
    m = [("user", Some w)].
Proof.
  rewrite fullmatch_finish. unfold re_lastfm. cbn [seqs fold_right].
  rewrite bol_start.
  pose proof (eol_at_end rt finish finish_at_end) as Hend.
  split.
  - destruct (run rt _ 0 s [] finish) as [g|] eqn:E; [|discriminate].
    intros Hm. injection Hm as <-.
    apply alt_heads in E; [|reflexivity|reflexivity].
    destruct E as (l & s' & Hl & -> & E).
    rewrite run_seq in E. apply run_lit_inv in E.
    destruct E as (w & -> & E). rewrite run_seq in E.
    apply group_plus_end in E; [|exact Hend].
    destruct E as (Hne & Hall & E).
    exists w. split; [exact Hne|]. split.
    { now rewrite <- forallb_word_ascii with (rt := rt). }
    split; [destruct Hl as [-> | ->]; auto|].
    cbn in E. injection E as <-. reflexivity.
  - intros (w & Hne & Hall & Hs & ->).
    assert (Hall' : forallb (in_class rt (Word true)) w = true).
    { now rewrite forallb_word_ascii. }
    assert (E : run rt
                  (Seq (Alt (Lit (u "last.fm")) (Lit note))
                       (Seq (Lit (u " "))
                            (Seq (Group "user" (Plus (Word true)))
                                 (Seq Eol (Lit []))))) 0 s [] finish
                = Some [("user", w)]).
    { apply alt_heads; [reflexivity|reflexivity|].
      destruct Hs as [-> | ->].
      - exists (u "last.fm"), (u " " ++ w). split; [now left|].
        split; [reflexivity|]. rewrite run_seq, run_lit, run_seq.
        apply group_plus_end; [exact Hend|].
        repeat split; assumption.
      - exists note, (u " " ++ w). split; [now right|].
        split; [reflexivity|]. rewrite run_seq, run_lit, run_seq.
        apply group_plus_end; [exact Hend|].
        repeat split; assumption. }
    rewrite E. reflexivity.
Qed.

Lemma CMD_REGEX_pattern (c : command) (r : regex) :
  In (c, r) CMD_REGEX -> r = pattern_of c.
Proof.
  unfold CMD_REGEX. simpl.
  intros H. repeat (destruct H as [H|H]; [now injection H as <- <-|]).
  contradiction.
Qed.

Lemma get_route_matches (rt : runtime) (self : instance) (s : pystr)
      (c : command) (m : groupdict) :
  get_route rt (table self) s = Some ((self, c), m) ->
  fullmatch rt (pattern_of c) s = Some m.
Proof.
  intros H. apply get_route_pattern in H. destruct H as (r & Hin & Hm).
  apply CMD_REGEX_pattern in Hin. now subst r.
Qed.

(** X1: a text is routed to the last.fm handler exactly when it is
    "last.fm" or the note emoji, one space, and a user name of one or more
    ASCII letters, digits or underscores; the handler then gets that name
    as [user]. *)
Theorem lastfm_route (rt : runtime) (self : instance) (s : pystr)
        (m : groupdict) :
  get_route rt (table self) s = Some ((self, Lastfm), m) <->
  exists w,
    w <> [] /\ forallb ascii_word w = true /\
    (s = u "last.fm " ++ w \/ s = note ++ u " " ++ w) /\
    m = [("user", Some w)].
Proof.
  split.
  - intros H. apply get_route_matches in H.
    now apply (proj1 (lastfm_fullmatch rt s m)).
  - intros H. pose proof (proj2 (lastfm_fullmatch rt s m) H) as Hm.
    destruct H as (w & _ & _ & Hs & _).
    rewrite table_routes. unfold CMD_REGEX.
    cbn [map get_route fst snd].
    assert (H1 : fullmatch rt re_vod s = None)
      by (destruct Hs as [-> | ->]; reflexivity).
    assert (H2 : fullmatch rt re_clip s = None)
      by (destruct Hs as [-> | ->]; reflexivity).
    assert (H3 : fullmatch rt re_lrrmc s = None)
      by (destruct Hs as [-> | ->]; reflexivity).
    now rewrite H1, H2, H3, Hm.
Qed.

(** ** The lrrmc command *)

Lemma run_opt (rt : runtime) (a : regex) (pos : nat) (s : pystr)
      (g : captures) (k : cont) :
  run rt (Opt a) pos s g k
  = match run rt a pos s g k with
    | Some r => Some r
    | None => k pos s g
    end.
Proof. reflexivity. Qed.

Lemma lrrmc_tail (rt : runtime) (pos : nat) (s : pystr) (g : captures) :
  run rt
      (Seq (Opt (Seq (Lit (u " ")) (Group "server" (Plus (Word false)))))
           (Seq Eol (Lit []))) pos s [] finish = Some g <->
  (s = [] /\ g = []) \/
  (exists w,
      w <> [] /\ forallb (in_class rt (Word false)) w = true /\
      s = u " " ++ w /\ g = [("server", w)]).
Proof.
  pose proof (eol_at_end rt finish finish_at_end) as Hend.
  rewrite run_seq, run_opt. split.
  - destruct (run rt (Seq (Lit (u " ")) _) pos s [] _) as [r|] eqn:E.
    + intros H. injection H as ->. right.
      rewrite run_seq in E. apply run_lit_inv in E.
      destruct E as (w & -> & E).
      apply group_plus_end in E; [|exact Hend].
      destruct E as (Hne & Hall & E). exists w.
      cbn in E. injection E as <-. auto.
    + intros H. left. destruct s as [|c s]; [|now rewrite Hend in H].
      cbn in H. injection H as <-. auto.
  - intros [[-> ->] | (w & Hne & Hall & -> & ->)].
    + reflexivity.
    + rewrite run_seq, run_lit.
      rewrite (proj2 (group_plus_end rt "server" (Word false) _ w [] _
                        [("server", w)] Hend)); [reflexivity|].
      repeat split; assumption.
Qed.

Lemma lrrmc_fullmatch (rt : runtime) (s : pystr) (m : groupdict) :
  fullmatch rt re_lrrmc s = Some m <->
  ((s = u "lrrmc" \/ s = pick) /\ m = [("server", None)]) \/
  (exists w,
      w <> [] /\ forallb (in_class rt (Word false)) w = true /\
      (s = u "lrrmc " ++ w \/ s = pick ++ u " " ++ w) /\
      m = [("server", Some w)]).
Proof.
  rewrite fullmatch_finish. unfold re_lrrmc. cbn [seqs fold_right].
  rewrite bol_start. split.
  - destruct (run rt _ 0 s [] finish) as [g|] eqn:E; [|discriminate].
    intros Hm. injection Hm as <-.
    apply alt_heads in E; [|reflexivity|reflexivity].
    destruct E as (l & s' & Hl & -> & E).
    apply lrrmc_tail in E.
    destruct E as [[-> ->] | (w & Hne & Hall & -> & ->)].
    + left. split; [|reflexivity].
      rewrite app_nil_r. exact Hl.
    + right. exists w. repeat split; try assumption.
      destruct Hl as [-> | ->]; auto.
  - intros H.
    assert (E : exists g,
               run rt
                 (Seq (Alt (Lit (u "lrrmc")) (Lit pick))
                      (Seq (Opt (Seq (Lit (u " "))
                                     (Group "server" (Plus (Word false)))))
                           (Seq Eol (Lit [])))) 0 s [] finish = Some g /\
               m = [("server", capture "server" g)]).
    { destruct H as [[Hs ->] | (w & Hne & Hall & Hs & ->)].
      - exists []. split; [|reflexivity].
        apply alt_heads; [reflexivity|reflexivity|].
        destruct Hs as [-> | ->].
        + exists (u "lrrmc"), []. split; [now left|]. split; [reflexivity|].
          apply lrrmc_tail. now left.
        + exists pick, []. split; [now right|]. split; [reflexivity|].
          apply lrrmc_tail. now left.
      - exists [("server", w)]. split; [|reflexivity].
        apply alt_heads; [reflexivity|reflexivity|].
        destruct Hs as [-> | ->].
        + exists (u "lrrmc"), (u " " ++ w). split; [now left|].
          split; [reflexivity|]. apply lrrmc_tail. right. now exists w.
        + exists pick, (u " " ++ w). split; [now right|].
          split; [reflexivity|]. apply lrrmc_tail. right. now exists w. }
    destruct E as (g & -> & ->). reflexivity.
Qed.

(** X2: a text is routed to the lrrmc handler exactly when it is "lrrmc" or
    the pick emoji, alone or followed by one space and a server name of
    one or more word characters; the handler gets the name as [server],
    or [None] when there is none. *)
Theorem lrrmc_route (rt : runtime) (self : instance) (s : pystr)
        (m : groupdict) :
  get_route rt (table self) s = Some ((self, Lrrmc), m) <->
  ((s = u "lrrmc" \/ s = pick) /\ m = [("server", None)]) \/
  (exists w,
      w <> [] /\ forallb (in_class rt (Word false)) w = true /\
      (s = u "lrrmc " ++ w \/ s = pick ++ u " " ++ w) /\
      m = [("server", Some w)]).
Proof.
  split.
  - intros H. apply get_route_matches in H.
    now apply (proj1 (lrrmc_fullmatch rt s m)).
  - intros H. pose proof (proj2 (lrrmc_fullmatch rt s m) H) as Hm.
    rewrite table_routes. unfold CMD_REGEX.
    cbn [map get_route fst snd].
    assert (H1 : fullmatch rt re_vod s = None /\ fullmatch rt re_clip s = None).
    { destruct H as [[[-> | ->] _] | (w & _ & _ & [-> | ->] & _)];
        split; reflexivity. }
    destruct H1 as [H1 H2]. now rewrite H1, H2, Hm.
Qed.

(** ** The roll command *)

Lemma firstn_length_app {A : Type} (a b : list A) :
  firstn (List.length a) (a ++ b) = a.
Proof. induction a as [|x a IH]; simpl; [reflexivity | now rewrite IH]. Qed.

(** A greedy repetition stops where the class stops, when what follows
    matches from there. *)
Lemma star_class_stop (p : codepoint -> bool) (s1 s2 : pystr) (pos : nat)
      (g : captures) (k : cont) (r : captures) :
  forallb p s1 = true ->
  match s2 with [] => True | c :: _ => p c = false end ->
  k (pos + List.length s1)%nat s2 g = Some r ->
  star_class p pos (s1 ++ s2) g k = Some r.
Proof.
  intros Hall Hstop. revert pos. induction s1 as [|c s1 IH]; intros pos Hk.
  - simpl in *. rewrite Nat.add_0_r in Hk.
    destruct s2 as [|c s2]; simpl; [exact Hk|]. now rewrite Hstop.
  - simpl in Hall. apply andb_prop in Hall as [Hc Hs1].
    simpl. rewrite Hc. rewrite (IH Hs1 (S pos)); [reflexivity|].
    simpl in Hk. now rewrite Nat.add_succ_r in Hk.
Qed.

Lemma plus_class_stop (p : codepoint -> bool) (s1 s2 : pystr) (pos : nat)
      (g : captures) (k : cont) (r : captures) :
  s1 <> [] ->
  forallb p s1 = true ->
  match s2 with [] => True | c :: _ => p c = false end ->
  k (pos + List.length s1)%nat s2 g = Some r ->
  plus_class p pos (s1 ++ s2) g k = Some r.
Proof.
  intros Hne Hall Hstop Hk. destruct s1 as [|c s1]; [congruence|].
  simpl in Hall. apply andb_prop in Hall as [Hc Hs1].
  simpl. rewrite Hc. apply star_class_stop; try assumption.
  simpl in Hk. now rewrite Nat.add_succ_r in Hk.
Qed.

(** What follows the space of [roll]: the count, if any, [d], the sides. *)
Lemma roll_dice (rt : runtime) (pos : nat) (s : pystr) (k : cont)
      (g : captures) :
  at_end_only k ->
  (forall pos' g', k pos' [] g' = Some g') ->
  run rt
      (Seq (Opt (Group "count" (Plus (Digit false))))
           (Seq (Lit (u "d")) (Seq (Group "sides" (Plus (Digit false))) (Lit []))))
      pos s [] k = Some g <->
  (exists ds,
      ds <> [] /\ forallb (in_class rt (Digit false)) ds = true /\
      s = u "d" ++ ds /\ g = [("sides", ds)]) \/
  (exists n ds,
      n <> [] /\ forallb (in_class rt (Digit false)) n = true /\
      ds <> [] /\ forallb (in_class rt (Digit false)) ds = true /\
      s = n ++ u "d" ++ ds /\ g = [("sides", ds); ("count", n)]).
Proof.
  intros Hk Hk0.
  pose proof (lit_nil_at_end rt k Hk) as Hend.
  assert (Hsides : forall pos' s' g0 r,
             run rt (Seq (Lit (u "d"))
                         (Seq (Group "sides" (Plus (Digit false))) (Lit [])))
                 pos' s' g0 k = Some r <->
             exists ds, ds <> [] /\
                        forallb (in_class rt (Digit false)) ds = true /\
                        s' = u "d" ++ ds /\ r = ("sides", ds) :: g0).
  { intros pos' s' g0 r. split.
    - intros E. rewrite run_seq in E. apply run_lit_inv in E.
      destruct E as (ds & -> & E). rewrite run_seq in E.
      apply group_plus_end in E; [|exact Hend].
      destruct E as (Hne & Hall & E). cbn [run lit_prefix] in E.
      rewrite Hk0 in E. injection E as <-. now exists ds.
    - intros (ds & Hne & Hall & -> & ->).
      rewrite run_seq, run_lit, run_seq.
      apply group_plus_end; [exact Hend|]. repeat split; try assumption.
      cbn [run lit_prefix]. now rewrite Hk0. }
  rewrite run_seq, run_opt. split.
  - destruct (run rt (Group "count" _) pos s [] _) as [r|] eqn:E.
    + intros H. injection H as ->. right.
      cbn [run] in E. apply plus_class_inv in E.
      destruct E as (n & s2 & -> & Hne & Hall & E).
      replace (pos + List.length n - pos)%nat with (List.length n) in E by lia.
      rewrite firstn_length_app in E.
      apply Hsides in E. destruct E as (ds & Hd & Hda & -> & ->).
      exists n, ds. repeat split; assumption.
    + intros H. left. apply Hsides in H.
      destruct H as (ds & Hd & Hda & -> & ->). now exists ds.
  - intros [(ds & Hd & Hda & -> & ->) | (n & ds & Hn & Hna & Hd & Hda & -> & ->)].
    + assert (E : run rt (Group "count" (Plus (Digit false))) pos (u "d" ++ ds) []
                      (fun pos' s' g' =>
                         run rt (Seq (Lit (u "d"))
                                     (Seq (Group "sides" (Plus (Digit false)))
                                          (Lit []))) pos' s' g' k) = None)
        by reflexivity.
      rewrite E. apply Hsides. now exists ds.
    + assert (E : run rt (Group "count" (Plus (Digit false))) pos
                      (n ++ u "d" ++ ds) []
                      (fun pos' s' g' =>
                         run rt (Seq (Lit (u "d"))
                                     (Seq (Group "sides" (Plus (Digit false)))
                                          (Lit []))) pos' s' g' k)
                  = Some [("sides", ds); ("count", n)]).
      { cbn [run]. apply plus_class_stop; [exact Hn | exact Hna | reflexivity |].
        replace (pos + List.length n - pos)%nat with (List.length n) by lia.
        rewrite firstn_length_app.
        apply (proj2 (Hsides _ _ _ _)). now exists ds. }
      now rewrite E.
Qed.

Lemma roll_tail (rt : runtime) (pos : nat) (s : pystr) (g : captures) :
  run rt
      (Seq (Opt (Seq (Lit (u " "))
                     (Seq (Opt (Group "count" (Plus (Digit false))))
                          (Seq (Lit (u "d"))
                               (Seq (Group "sides" (Plus (Digit false)))
                                    (Lit []))))))
           (Lit [])) pos s [] finish = Some g <->
  (s = [] /\ g = []) \/
  (exists ds, digits rt ds /\ s = u " d" ++ ds /\ g = [("sides", ds)]) \/
  (exists n ds,
      digits rt n /\ digits rt ds /\ s = u " " ++ n ++ u "d" ++ ds /\
      g = [("sides", ds); ("count", n)]).
Proof.
  pose proof (lit_nil_at_end rt finish finish_at_end) as Hend.
  assert (Hk0 : forall pos' g',
             (fun pos0 s0 g0 => run rt (Lit []) pos0 s0 g0 finish) pos' [] g'
             = Some g') by reflexivity.
  unfold digits. rewrite run_seq, run_opt. split.
  - destruct (run rt (Seq (Lit (u " ")) _) pos s [] _) as [r|] eqn:E.
    + intros H. injection H as ->. right.
      rewrite run_seq in E. apply run_lit_inv in E.
      destruct E as (s' & -> & E).
      apply (proj1 (roll_dice rt _ _ _ _ Hend Hk0)) in E.
      destruct E as [(ds & Hd & Hda & -> & ->)
                    | (n & ds & Hn & Hna & Hd & Hda & -> & ->)].
      * left. exists ds. auto.
      * right. exists n, ds. auto.
    + intros H. left. destruct s as [|c s]; [|now rewrite Hend in H].
      cbn in H. injection H as <-. auto.
  - intros [[-> ->] | [(ds & [Hd Hda] & -> & ->)
                      | (n & ds & [Hn Hna] & [Hd Hda] & -> & ->)]].
    + reflexivity.
    + change (u " d" ++ ds) with (u " " ++ u "d" ++ ds).
      rewrite run_seq, run_lit.
      rewrite (proj2 (roll_dice rt _ (u "d" ++ ds) _ [("sides", ds)] Hend Hk0));
        [reflexivity|].
      left. now exists ds.
    + rewrite run_seq, run_lit.
      rewrite (proj2 (roll_dice rt _ (n ++ u "d" ++ ds) _
                        [("sides", ds); ("count", n)] Hend Hk0));
        [reflexivity|].
      right. now exists n, ds.
Qed.

Lemma roll_fullmatch (rt : runtime) (s : pystr) (m : groupdict) :
  fullmatch rt re_roll s = Some m <->
  exists head,
    (head = u "roll" \/ head = die) /\
    ((s = head /\ m = [("count", None); ("sides", None)]) \/
     (exists ds,
         digits rt ds /\ s = head ++ u " d" ++ ds /\
         m = [("count", None); ("sides", Some ds)]) \/
     (exists n ds,
         digits rt n /\ digits rt ds /\
         s = head ++ u " " ++ n ++ u "d" ++ ds /\
         m = [("count", Some n); ("sides", Some ds)])).
Proof.
  rewrite fullmatch_finish. unfold re_roll. cbn [seqs fold_right].
  rewrite bol_start. split.
  - destruct (run rt _ 0 s [] finish) as [g|] eqn:E; [|discriminate].
    intros Hm. injection Hm as <-.
    apply alt_heads in E; [|reflexivity|reflexivity].
    destruct E as (l & s' & Hl & -> & E).
    apply roll_tail in E. exists l. split; [exact Hl|].
    destruct E as [[-> ->] | [(ds & Hd & -> & ->)
                             | (n & ds & Hn & Hd & -> & ->)]].
    + left. now rewrite app_nil_r.
    + right. left. now exists ds.
    + right. right. now exists n, ds.
  - intros (head & Hh & H).
    assert (E : exists g,
               run rt
                 (Seq (Alt (Lit (u "roll")) (Lit die))
                      (Seq (Opt (Seq (Lit (u " "))
                                     (Seq (Opt (Group "count" (Plus (Digit false))))
                                          (Seq (Lit (u "d"))
                                               (Seq (Group "sides"
                                                           (Plus (Digit false)))
                                                    (Lit []))))))
                           (Lit []))) 0 s [] finish = Some g /\
               m = [("count", capture "count" g); ("sides", capture "sides" g)]).
    { destruct H as [[-> ->] | [(ds & Hd & -> & ->)
                               | (n & ds & Hn & Hd & -> & ->)]].
      - exists []. split; [|reflexivity].
        apply alt_heads; [reflexivity|reflexivity|].
        exists head, []. split; [exact Hh|]. split; [now rewrite app_nil_r|].
        apply roll_tail. now left.
      - exists [("sides", ds)]. split; [|reflexivity].
        apply alt_heads; [reflexivity|reflexivity|].
        exists head, (u " d" ++ ds). split; [exact Hh|]. split; [reflexivity|].
        apply roll_tail. right. left. now exists ds.
      - exists [("sides", ds); ("count", n)]. split; [|reflexivity].
        apply alt_heads; [reflexivity|reflexivity|].
        exists head, (u " " ++ n ++ u "d" ++ ds). split; [exact Hh|].
        split; [reflexivity|].
        apply roll_tail. right. right. now exists n, ds. }
    destruct E as (g & -> & ->). reflexivity.
Qed.

(** X3: a text is routed to the roll handler exactly when it is "roll" or
    the die emoji, alone or followed by a space, an optional count, [d]
    and the sides; [count] and [sides] reach the handler as the digits
    written, or [None] where there are none. *)
Theorem roll_route (rt : runtime) (self : instance) (s : pystr)
        (m : groupdict) :
  get_route rt (table self) s = Some ((self, Roll), m) <->
  exists head,
    (head = u "roll" \/ head = die) /\
    ((s = head /\ m = [("count", None); ("sides", None)]) \/
     (exists ds,
         digits rt ds /\ s = head ++ u " d" ++ ds /\
         m = [("count", None); ("sides", Some ds)]) \/
     (exists n ds,
         digits rt n /\ digits rt ds /\
         s = head ++ u " " ++ n ++ u "d" ++ ds /\
         m = [("count", Some n); ("sides", Some ds)])).
Proof.
  split.
  - intros H. apply get_route_matches in H.
    now apply (proj1 (roll_fullmatch rt s m)).
  - intros H. pose proof (proj2 (roll_fullmatch rt s m) H) as Hm.
    rewrite table_routes. unfold CMD_REGEX.
    cbn [map get_route fst snd].
    assert (H1 : fullmatch rt re_vod s = None /\
                 fullmatch rt re_clip s = None /\
                 fullmatch rt re_lrrmc s = None /\
                 fullmatch rt re_lastfm s = None).
    { destruct H as (head & [-> | ->] & [[-> _] | [(ds & _ & -> & _)
                                                 | (n & ds & _ & _ & -> & _)]]);
        repeat split; reflexivity. }
    destruct H1 as (H1 & H2 & H3 & H4). now rewrite H1, H2, H3, H4, Hm.
Qed.

(** ** The commands without arguments *)

Lemma exact_fullmatch (rt : runtime) (l s : pystr) (m : groupdict) :
  fullmatch rt (seqs [Bol; Lit l; Eol]) s = Some m <-> s = l /\ m = [].
Proof.
  pose proof (eol_at_end rt finish finish_at_end) as Hend.
  rewrite fullmatch_finish. cbn [seqs fold_right]. rewrite bol_start. split.
  - destruct (run rt _ 0 s [] finish) as [g|] eqn:E; [|discriminate].
    intros Hm. injection Hm as <-.
    rewrite run_seq in E. apply run_lit_inv in E.
    destruct E as ([|c s'] & -> & E); [|now rewrite Hend in E].
    now rewrite app_nil_r.
  - intros [-> ->]. rewrite <- (app_nil_r l) at 2.
    now rewrite run_seq, run_lit.
Qed.

(** X4: [vod], [clip] and [bingo] are routed for exactly these texts:
    there is no alias, nothing may follow (not even a newline), and the
    case counts. *)
Theorem static_routes (rt : runtime) (self : instance) (s : pystr)
        (m : groupdict) :
  (get_route rt (table self) s = Some ((self, Vod), m)
   <-> s = u "vod" /\ m = []) /\
  (get_route rt (table self) s = Some ((self, Clip), m)
   <-> s = u "clip" /\ m = []) /\
  (get_route rt (table self) s = Some ((self, Bingo), m)
   <-> s = u "bingo" /\ m = []).
Proof.
  assert (Hx : forall c l,
             pattern_of c = seqs [Bol; Lit l; Eol] ->
             get_route rt (table self) l = Some ((self, c), []) ->
             (get_route rt (table self) s = Some ((self, c), m)
              <-> s = l /\ m = [])).
  { intros c l Hp Hl. split.
    - intros H. apply get_route_matches in H. rewrite Hp in H.
      now apply exact_fullmatch in H.
    - now intros [-> ->]. }
  repeat apply conj; apply Hx; try reflexivity;
    rewrite table_routes; reflexivity.
Qed.

(** ** One pattern at most *)

Lemma matches_head (rt : runtime) (c : command) (s : pystr) :
  matches rt (pattern_of c) s = true -> head_of s = Some c.
Proof.
  unfold matches. destruct (fullmatch rt (pattern_of c) s) as [m|] eqn:E;
    [intros _ | discriminate].
  destruct c; cbn [pattern_of] in E.
  - apply exact_fullmatch in E. now destruct E as [-> _].
  - apply exact_fullmatch in E. now destruct E as [-> _].
  - apply lrrmc_fullmatch in E.
    now destruct E as [[[-> | ->] _] | (w & _ & _ & [-> | ->] & _)].
  - apply lastfm_fullmatch in E.
    now destruct E as (w & _ & _ & [-> | ->] & _).
  - apply roll_fullmatch in E.
    now destruct E as (head & [-> | ->] & [[-> _] | [(ds & _ & -> & _)
                                                   | (n & ds & _ & _ & -> & _)]]).
  - apply exact_fullmatch in E. now destruct E as [-> _].
  - assert (H : fullmatch rt re_help s <> None) by congruence.
    apply help_fullmatch in H. now destruct H as [-> | ->].
Qed.

(** X5: no text is matched by the patterns of two commands, so the order
    in which the table is searched never decides between its routes. *)
Theorem patterns_exclusive (rt : runtime) (s : pystr) :
  (List.length (filter (fun kr => matches rt (snd kr) s) CMD_REGEX) <= 1)%nat.
Proof.
  unfold CMD_REGEX. cbn [filter snd].
  pose proof (matches_head rt Vod s) as Hv.
  pose proof (matches_head rt Clip s) as Hc.
  pose proof (matches_head rt Lrrmc s) as Hl.
  pose proof (matches_head rt Lastfm s) as Hf.
  pose proof (matches_head rt Roll s) as Hr.
  pose proof (matches_head rt Bingo s) as Hb.
  pose proof (matches_head rt Help s) as Hh.
  cbn [pattern_of] in *.
  destruct (matches rt re_vod s); destruct (matches rt re_clip s);
    destruct (matches rt re_lrrmc s); destruct (matches rt re_lastfm s);
    destruct (matches rt re_roll s); destruct (matches rt re_bingo s);
    destruct (matches rt re_help s);
    cbn [List.length];
    try lia;
    repeat match goal with
           | H : true = true -> _ |- _ => specialize (H eq_refl)
           end;
    congruence.
Qed.

(** ** What a dispatch sends *)

Lemma privmsgs_app (a b : list event) :
  privmsgs (a ++ b) = privmsgs a ++ privmsgs b.
Proof. apply filter_app. Qed.

Lemma quiet_ret {A} (a : A) : quiet (ret a).
Proof. intros e st. exists []. simpl. now rewrite traced_nil. Qed.

Lemma quiet_raise {A} (x : exn) : quiet (@raise A x).
Proof. intros e st. exists []. simpl. now rewrite traced_nil. Qed.

Lemma quiet_lift {A} (r : result A) : quiet (lift r).
Proof. intros e st. exists []. simpl. now rewrite traced_nil. Qed.

Lemma quiet_ask : quiet ask.
Proof. intros e st. exists []. simpl. now rewrite traced_nil. Qed.

Lemma quiet_emit (ev : event) : is_privmsg ev = false -> quiet (emit ev).
Proof.
  intros H e st. exists [ev]. split; [reflexivity|].
  unfold privmsgs. simpl. now rewrite H.
Qed.

Lemma quiet_bind {A B} (c : M A) (f : A -> M B) :
  quiet c -> (forall a, quiet (f a)) -> quiet (bind c f).
Proof.
  intros Hc Hf e st. unfold bind.
  destruct (Hc e st) as (evs & Hevs & Hq).
  destruct (c e st) as [[a|x] st']; simpl in *; subst st'.
  - destruct (Hf a e (traced st evs)) as (evs' & Hevs' & Hq').
    exists (evs ++ evs'). rewrite Hevs', traced_traced, privmsgs_app, Hq, Hq'.
    now split.
  - now exists evs.
Qed.

Lemma quiet_try_except {A} (c : M A) (which : exn -> bool) (h : M A) :
  quiet c -> quiet h -> quiet (try_except c which h).
Proof.
  intros Hc Hh e st. unfold try_except.
  destruct (Hc e st) as (evs & Hevs & Hq).
  destruct (c e st) as [[a|x] st']; simpl in *; subst st'.
  - now exists evs.
  - destruct (which x); simpl.
    + destruct (Hh e (traced st evs)) as (evs' & Hevs' & Hq').
      exists (evs ++ evs'). rewrite Hevs', traced_traced, privmsgs_app, Hq, Hq'.
      now split.
    + now exists evs.
Qed.

Lemma quiet_await {A} (c : call) (answer : env -> result A) :
  quiet (await c answer).
Proof.
  unfold await. apply quiet_bind; [now apply quiet_emit|]. intros _.
  apply quiet_bind; [apply quiet_ask|]. intros e. apply quiet_lift.
Qed.

Lemma quiet_field (args : list pyval) (i : nat) : quiet (field args i).
Proof.
  unfold field. apply quiet_bind; [apply quiet_ask|]. intros e.
  destruct (nth_error args i); [apply quiet_ret | apply quiet_raise].
Qed.

Lemma quiet_unpack (item : option (list pyval)) : quiet (unpack item).
Proof. destruct item; [apply quiet_ret | apply quiet_raise]. Qed.

Lemma quiet_check_kwargs (c : command) (kw : groupdict) :
  quiet (check_kwargs c kw).
Proof.
  unfold check_kwargs. destruct (forallb _ kw);
    [apply quiet_ret | apply quiet_raise].
Qed.

Lemma replying_quiet {A} (cid : nat) (target : pystr) (m : M A) :
  quiet m -> replying cid target m.
Proof.
  intros H e st. destruct (H e st) as (evs & Hevs & Hq).
  exists evs. split; [exact Hevs | now left].
Qed.

Lemma replying_privmsg (self : instance) (target msg : pystr) :
  replying (client_id (client_of self)) target (privmsg self target msg).
Proof.
  intros e st. exists [Privmsg (client_id (client_of self)) target msg].
  split; [reflexivity|]. right. now exists msg.
Qed.

Lemma replying_bind {A B} (cid : nat) (target : pystr) (c : M A)
      (f : A -> M B) :
  quiet c -> (forall a, replying cid target (f a)) ->
  replying cid target (bind c f).
Proof.
  intros Hc Hf e st. unfold bind.
  destruct (Hc e st) as (evs & Hevs & Hq).
  destruct (c e st) as [[a|x] st']; simpl in *; subst st'.
  - destruct (Hf a e (traced st evs)) as (evs' & Hevs' & Hr).
    exists (evs ++ evs'). rewrite Hevs', traced_traced. split; [reflexivity|].
    unfold one_reply in *. now rewrite privmsgs_app, Hq.
  - exists evs. split; [reflexivity | now left].
Qed.

Ltac replying_step :=
  match goal with
  | |- replying _ _ (if ?b then _ else _) => destruct b
  | |- replying _ _ (match ?x with _ => _ end) => destruct x
  | |- forall _, _ => intro
  | |- replying _ _ (privmsg _ _ _) => apply replying_privmsg
  | |- replying _ _ (bind _ _) => apply replying_bind
  | |- quiet (bind _ _) => apply quiet_bind
  | |- quiet (try_except _ _ _) => apply quiet_try_except
  | |- quiet (await _ _) => apply quiet_await
  | |- quiet (field _ _) => apply quiet_field
  | |- quiet (unpack _) => apply quiet_unpack
  | |- quiet (check_kwargs _ _) => apply quiet_check_kwargs
  | |- quiet (lift _) => apply quiet_lift
  | |- quiet (ret _) => apply quiet_ret
  | |- quiet ask => apply quiet_ask
  end.

(** Every method sends at most one message, through its own client and
    to the target it was called with. *)
Lemma replying_func (self : instance) (c : command) (target nick : pystr)
      (kw : groupdict) :
  replying (client_id (client_of self)) target (func self c target nick kw).
Proof.
  unfold func. apply replying_bind; [apply quiet_check_kwargs|]. intros _.
  destruct c;
    unfold vod_body, clip_body, lrrmc_body, lastfm_body, roll_body,
           bingo_body, help_body;
    repeat replying_step.
Qed.

(** The three ways a decorated method can go. *)
Lemma handle_command_cases (self : instance) (c : command)
      (target nick : pystr) (kw : groupdict) (e : env) (st : store) :
  (rate_limited_loop st = None /\
   handle_command (self, c) target nick kw e st = (Raise AttributeError, st)) \/
  (exists loop,
      rate_limited_loop st = Some loop /\
      (loop_time e loop - _spam_last (wrappers st c)
       <= _spam_span (wrappers st c))%Q /\
      handle_command (self, c) target nick kw e st
      = (Ok tt, traced st [suppressed c])) \/
  (exists loop,
      rate_limited_loop st = Some loop /\
      (_spam_span (wrappers st c)
       < loop_time e loop - _spam_last (wrappers st c))%Q /\
      handle_command (self, c) target nick kw e st
      = func self c target nick kw e (stamped st c (loop_time e loop))).
Proof.
  unfold handle_command. cbn [fst snd].
  destruct (rate_limited_loop st) as [loop|] eqn:Hl.
  - destruct (Qlt_le_dec (_spam_span (wrappers st c))
                         (loop_time e loop - _spam_last (wrappers st c)))
      as [Hlt|Hle].
    + right. right. exists loop. repeat split; [exact Hlt|].
      now apply wrapper_proceeds.
    + right. left. exists loop. repeat split; [exact Hle|].
      now apply wrapper_suppresses with (loop := loop).
  - left. split; [reflexivity|].
    unfold wrapper, bind, get, raise. simpl. now rewrite Hl.
Qed.

(** X6: a dispatch sends at most one message.  It goes to the sender when
    the message was addressed to the bot itself and to the original target
    otherwise, through the client of the instance whose method was
    routed. *)
Theorem dispatch_replies_once (self : instance) (nick target message : pystr)
        (e : env) (st : store) :
  (target = nickname (client_of self) -> reply_target self nick target = nick) /\
  (target <> nickname (client_of self) ->
   reply_target self nick target = target) /\
  exists evs,
    trace (snd (handle_privmsg self nick target message e st))
    = trace st ++ evs /\
    (privmsgs evs = [] \/
     exists cb kw msg,
       get_route (interp e) (routes st) (tl message) = Some (cb, kw) /\
       privmsgs evs
       = [Privmsg (client_id (client_of (fst cb)))
                  (reply_target self nick target) msg]).
Proof.
  split; [|split].
  - intros ->. unfold reply_target. now rewrite (proj2 (pystr_eqb_eq _ _) eq_refl).
  - intros Hne. unfold reply_target.
    destruct (pystr_eqb target (nickname (client_of self))) eqn:E;
      [|reflexivity].
    apply pystr_eqb_eq in E. contradiction.
  - destruct (negb (startswith message (prefix self))
              || (List.length message <? 2)%nat) eqn:Hc.
    + exists []. rewrite handle_privmsg_not_command by exact Hc.
      split; [now rewrite app_nil_r | now left].
    + rewrite handle_privmsg_command by exact Hc.
      destruct (get_route (interp e) (routes st) (tl message))
        as [[[inst c] kw]|] eqn:Hr.
      * set (st0 := traced st [got_command (tl message) nick]).
        destruct (handle_command_cases inst c (reply_target self nick target)
                    nick kw e st0)
          as [[_ ->] | [(loop & _ & _ & ->) | (loop & _ & _ & ->)]].
        -- exists [got_command (tl message) nick]. split; [reflexivity | now left].
        -- exists [got_command (tl message) nick; suppressed c].
           split; [|now left]. simpl. now rewrite <- app_assoc.
        -- destruct (replying_func inst c (reply_target self nick target) nick
                       kw e (stamped st0 c (loop_time e loop)))
             as (evs & -> & [Hq | (msg & Hq)]).
           ++ exists (got_command (tl message) nick :: evs).
              split; [simpl; now rewrite <- app_assoc|]. left.
              unfold privmsgs in *. simpl. exact Hq.
           ++ exists (got_command (tl message) nick :: evs).
              split; [simpl; now rewrite <- app_assoc|]. right.
              exists (inst, c), kw, msg. split; [reflexivity|].
              unfold privmsgs in *. simpl. exact Hq.
      * exists [got_command (tl message) nick]. split; [reflexivity | now left].
Qed.

(** ** What a dispatch leaves alone *)

Lemma handle_command_wrappers (self : instance) (c : command)
      (target nick : pystr) (kw : groupdict) (e : env) (st : store) :
  let st' := snd (handle_command (self, c) target nick kw e st) in
  routes st' = routes st /\
  rate_limited_loop st' = rate_limited_loop st /\
  ((forall c', wrappers st' c' = wrappers st c') \/
   (exists loop,
       rate_limited_loop st = Some loop /\
       (_spam_span (wrappers st c)
        < loop_time e loop - _spam_last (wrappers st c))%Q /\
       forall c', wrappers st' c'
                  = wrappers (stamped st c (loop_time e loop)) c')).
Proof.
  intros st'. unfold st'.
  destruct (handle_command_cases self c target nick kw e st)
    as [[_ ->] | [(loop & _ & _ & ->) | (loop & Hl & Hlt & ->)]].
  - repeat split. now left.
  - repeat split. now left.
  - destruct (tracing_func self c target nick kw e
                (stamped st c (loop_time e loop))) as [evs ->].
    repeat split. right. exists loop. now repeat split.
Qed.

(** X7: a dispatch never touches the routes, the limiter's loop or any
    span; the only timestamp it can change is that of the routed command,
    which becomes the clock's reading when the call is let through. *)
Theorem dispatch_frame (self : instance) (nick target message : pystr)
        (e : env) (st : store) :
  let st' := snd (handle_privmsg self nick target message e st) in
  routes st' = routes st /\
  rate_limited_loop st' = rate_limited_loop st /\
  (forall c, _spam_span (wrappers st' c) = _spam_span (wrappers st c)) /\
  (forall c,
      _spam_last (wrappers st' c) = _spam_last (wrappers st c) \/
      exists inst kw loop,
        get_route (interp e) (routes st) (tl message) = Some ((inst, c), kw) /\
        rate_limited_loop st = Some loop /\
        (_spam_span (wrappers st c)
         < loop_time e loop - _spam_last (wrappers st c))%Q /\
        _spam_last (wrappers st' c) = loop_time e loop).
Proof.
  intros st'. unfold st'.
  destruct (negb (startswith message (prefix self))
            || (List.length message <? 2)%nat) eqn:Hc.
  { rewrite handle_privmsg_not_command by exact Hc. simpl. auto. }
  rewrite handle_privmsg_command by exact Hc.
  destruct (get_route (interp e) (routes st) (tl message))
    as [[[inst c] kw]|] eqn:Hr; [|simpl; auto].
  set (st0 := traced st [got_command (tl message) nick]).
  pose proof (handle_command_wrappers inst c (reply_target self nick target)
                nick kw e st0) as (H1 & H2 & H3).
  split; [exact H1|]. split; [exact H2|].
  destruct H3 as [H3 | (loop & Hl & Hlt & H3)].
  - split; intros c'; rewrite H3; auto.
  - split; intros c'; rewrite H3.
    + simpl. destruct (command_eqb c' c) eqn:E; [|reflexivity].
      apply command_eqb_eq in E. now subst c'.
    + simpl. destruct (command_eqb c' c) eqn:E; [|now left].
      apply command_eqb_eq in E. subst c'. right.
      exists inst, kw, loop. auto.
Qed.

(** X8: with spans that are not negative, no dispatch ever moves a stored
    timestamp backwards, whatever the clock reads. *)
Theorem spam_last_monotone (self : instance) (nick target message : pystr)
        (e : env) (st : store) :
  (forall c, (0 <= _spam_span (wrappers st c))%Q) ->
  forall c,
    (_spam_last (wrappers st c)
     <= _spam_last
          (wrappers (snd (handle_privmsg self nick target message e st)) c))%Q.
Proof.
  intros Hspan c.
  pose proof (dispatch_frame self nick target message e st) as (_ & _ & _ & H).
  destruct (H c) as [-> | (inst & kw & loop & _ & _ & Hlt & ->)].
  - apply Qle_refl.
  - specialize (Hspan c). lra.
Qed.

Lemma spam_last_monotone_witness :
  (_spam_last (wrappers demo_store Help)
   <= _spam_last
        (wrappers (snd (handle_privmsg demo_self (u "ann") (u "#lrr")
                                       (u "!help") (demo_env 100) demo_store))
                  Help))%Q.
Proof.
  apply (spam_last_monotone demo_self (u "ann") (u "#lrr") (u "!help")
           (demo_env 100) demo_store).
  intros c. discriminate.
Defined.

(** X9: a limiter without a loop fails every routed command: the dispatch
    ends in [AttributeError] after the log line, and nothing is sent or
    stamped.  This is the state a [CommandHandler] built without [loop]
    leaves behind. *)
Theorem no_loop_no_service (self : instance) (nick target message : pystr)
        (e : env) (st : store) (cb : bound_method) (kw : groupdict) :
  rate_limited_loop st = None ->
  is_command self message = true ->
  get_route (interp e) (routes st) (tl message) = Some (cb, kw) ->
  handle_privmsg self nick target message e st
  = (Raise AttributeError, traced st [got_command (tl message) nick]) /\
  forall cl pre ov e0 st0,
    rate_limited_loop (snd (init cl None pre ov e0 st0)) = None.
Proof.
  intros Hl Hc Hr. split.
  - unfold is_command in Hc. apply negb_true_iff in Hc.
    rewrite handle_privmsg_command by exact Hc. rewrite Hr.
    destruct cb as [inst c].
    destruct (handle_command_cases inst c (reply_target self nick target) nick
                kw e (traced st [got_command (tl message) nick]))
      as [[_ ->] | [(loop & Hl' & _) | (loop & Hl' & _)]];
      [reflexivity | simpl in Hl'; congruence | simpl in Hl'; congruence].
  - intros cl pre ov e0 st0. now rewrite init_store.
Qed.

Lemma no_loop_no_service_witness :
  handle_privmsg demo_self (u "ann") (u "#lrr") (u "!help") (demo_env 100)
    (snd (init demo_client None (u "!") None (demo_env 0) class_store))
  = (Raise AttributeError,
     traced (snd (init demo_client None (u "!") None (demo_env 0) class_store))
            [got_command (u "help") (u "ann")]).
Proof.
  exact (proj1 (no_loop_no_service demo_self (u "ann") (u "#lrr") (u "!help")
                  (demo_env 100)
                  (snd (init demo_client None (u "!") None (demo_env 0)
                             class_store))
                  (demo_self, Help) [] eq_refl eq_refl eq_refl)).
Defined.

(** ** Which messages are commands *)

(** X10: a message is taken for a command exactly when its first character
    is one of the prefix characters and something follows it.  Any other
    message passes without a trace; a command is logged with the text
    after its first character, whatever happens next. *)
Theorem command_recognition (self : instance) (nick target message : pystr)
        (e : env) (st : store) :
  (is_command self message = true <->
   exists c rest, message = c :: rest /\ rest <> [] /\ In c (prefix self)) /\
  (is_command self message = false ->
   handle_privmsg self nick target message e st = (Ok tt, st)) /\
  (is_command self message = true ->
   exists evs,
     trace (snd (handle_privmsg self nick target message e st))
     = trace st ++ got_command (tl message) nick :: evs).
Proof.
  split; [|split].
  - unfold is_command, startswith.
    rewrite negb_true_iff, orb_false_iff, negb_false_iff, Nat.ltb_ge. split.
    + intros [Hp Hlen]. destruct message as [|c rest]; [discriminate|].
      exists c, rest. split; [reflexivity|]. split.
      * destruct rest; [simpl in Hlen; lia | discriminate].
      * apply existsb_exists in Hp. destruct Hp as (x & Hin & Hx).
        apply N.eqb_eq in Hx. now subst x.
    + intros (c & rest & -> & Hne & Hin). split.
      * apply existsb_exists. exists c. split; [exact Hin | apply N.eqb_refl].
      * destruct rest; [congruence | simpl; lia].
  - intros H. apply handle_privmsg_not_command.
    unfold is_command in H. now apply negb_false_iff in H.
  - intros H. unfold is_command in H. apply negb_true_iff in H.
    rewrite handle_privmsg_command by exact H.
    destruct (get_route (interp e) (routes st) (tl message))
      as [[[inst c] kw]|]; [|now exists []].
    destruct (handle_command_cases inst c (reply_target self nick target) nick
                kw e (traced st [got_command (tl message) nick]))
      as [[_ ->] | [(loop & _ & _ & ->) | (loop & _ & _ & ->)]].
    + now exists [].
    + exists [suppressed c]. simpl. now rewrite <- app_assoc.
    + destruct (tracing_func inst c (reply_target self nick target) nick kw e
                  (stamped (traced st [got_command (tl message) nick]) c
                           (loop_time e loop))) as [evs ->].
      exists evs. simpl. now rewrite <- app_assoc.
Qed.

(** ** What the handlers answer *)

(** X11: whatever count and sides a roll command carries, the handler
    answers with the same refusal and computes nothing. *)
Theorem roll_always_refuses (rt : runtime) (self : instance)
        (target nick s : pystr) (m : groupdict) (e : env) (st : store) :
  get_route rt (table self) s = Some ((self, Roll), m) ->
  func self Roll target nick m e st
  = (Ok tt,
     traced st [Privmsg (client_id (client_of self)) target
                        (u "THIS is why we can't have nice things!")]).
Proof.
  intros H. apply roll_route in H.
  destruct H as (head & _ & [[_ ->] | [(ds & _ & _ & ->)
                                      | (n & ds & _ & _ & _ & ->)]]);
    reflexivity.
Qed.

Lemma roll_always_refuses_witness :
  func demo_self Roll (u "#lrr") (u "ann")
       [("count", Some (u "2")); ("sides", Some (u "20"))] (demo_env 100)
       demo_store
  = (Ok tt,
     traced demo_store
            [Privmsg 1 (u "#lrr") (u "THIS is why we can't have nice things!")]).
Proof.
  exact (roll_always_refuses plain_rt demo_self (u "#lrr") (u "ann")
           (u "roll 2d20") _ (demo_env 100) demo_store eq_refl).
Defined.

(** X12: the two single-result handlers use the first item only and print
    its fields in the order first, third, second; an item with fewer than
    three fields raises [IndexError] and nothing is sent. *)
Theorem single_result_format (self : instance) (target nick : pystr)
        (e : env) (st : store) (item : list pyval)
        (more : list (list pyval)) :
  let cid := client_id (client_of self) in
  let str := py_str (interp e) in
  (get_broadcasts e 27132299 1 = Ok (item :: more) ->
   func self Vod target nick [] e st
   = match item with
     | f0 :: f1 :: f2 :: _ =>
         (Ok tt,
          traced st
            [Collab (CallGetBroadcasts 27132299 1);
             Privmsg cid target
               (u "Latest Broadcast: " ++ str f0 ++ u " [" ++ str f2
                  ++ u "] | " ++ str f1)])
     | _ => (Raise IndexError, traced st [Collab (CallGetBroadcasts 27132299 1)])
     end) /\
  (get_top_clips e (u "loadingreadyrun") 1 = Ok (item :: more) ->
   func self Clip target nick [] e st
   = match item with
     | f0 :: f1 :: f2 :: _ =>
         (Ok tt,
          traced st
            [Collab (CallGetTopClips (u "loadingreadyrun") 1);
             Privmsg cid target
               (u "Top Clip: " ++ str f0 ++ u " [" ++ str f2
                  ++ u "] | https://clips.twitch.tv/" ++ str f1)])
     | _ => (Raise IndexError,
             traced st [Collab (CallGetTopClips (u "loadingreadyrun") 1)])
     end).
Proof.
  intros cid str. split; intros H;
    unfold func, vod_body, clip_body, await, privmsg, check_kwargs, unpack,
      field, bind, emit, ask, lift, ret, raise;
    simpl; rewrite H; simpl;
    destruct item as [|f0 [|f1 [|f2 rest]]]; simpl;
    unfold traced; simpl; rewrite <- ?app_assoc; reflexivity.
Qed.




(** X14: the lrrmc handler catches the deadline and nothing else: any other
    exception of the status request leaves the handler, and no message is
    sent. *)
Theorem lrrmc_other_failure (self : instance) (target nick : pystr)
        (alias : option pystr) (e : env) (st : store) (x : exn) :
  let srv := servers_get alias in
  wait_for_get_status e (host srv) (port srv) 2 = Raise x ->
  x <> TimeoutError ->
  func self Lrrmc target nick [("server", alias)] e st
  = (Raise x, traced st [Collab (CallGetStatus (host srv) (port srv) 2)]).
Proof.
  intros srv H Hx. run_body. unfold deadline. fold srv. rewrite H.
  assert (Ht : is_timeout x = false) by (destruct x; congruence || reflexivity).
  rewrite Ht. reflexivity.
Qed.

Lemma lrrmc_other_failure_witness :
  func demo_self Lrrmc (u "#lrr") (u "ann") [("server", None)]
       (demo_world (Raise (Failure "ConnectionRefusedError")) (Ok VNone))
       demo_store
  = (Raise (Failure "ConnectionRefusedError"),
     traced demo_store
       [Collab (CallGetStatus (u "minecraft.darkmorford.net") 25565 2)]).
Proof.
  refine (lrrmc_other_failure demo_self (u "#lrr") (u "ann") None
            (demo_world (Raise (Failure "ConnectionRefusedError")) (Ok VNone))
            demo_store (Failure "ConnectionRefusedError") eq_refl _).
  discriminate.
Defined.

(** X15: the only server name that selects another server is "snorsh"; any
    other name, known or not, is answered for the vanilla server, exactly
    as the bare command is. *)
Theorem lrrmc_alias_fallback (self : instance) (target nick w : pystr)
        (e : env) (st : store) :
  servers_get (Some (u "snorsh")) = snorsh /\
  (w <> u "snorsh" ->
   servers_get (Some w) = vanilla /\
   func self Lrrmc target nick [("server", Some w)] e st
   = func self Lrrmc target nick [("server", None)] e st).
Proof.
  split; [reflexivity|]. intros Hne.
  assert (Hs : servers_get (Some w) = vanilla).
  { unfold servers_get, LRRMC_SERVERS. cbn [find fst snd].
    destruct (pystr_eqb (u "vanilla") w); [reflexivity|].
    destruct (pystr_eqb (u "snorsh") w) eqn:E; [|reflexivity].
    apply pystr_eqb_eq in E. congruence. }
  split; [exact Hs|].
  unfold func, lrrmc_body. cbn [bound lookup String.eqb Ascii.eqb Bool.eqb].
  rewrite Hs. reflexivity.
Qed.

(** * config.py *)

(** ** Splitting and joining *)

Lemma split_not_nil (sep : codepoint) (s : pystr) : Config.split sep s <> [].
Proof.
  induction s as [|c s IH]; simpl; [discriminate|].
  destruct (c =? sep)%N; [discriminate|].
  destruct (Config.split sep s); [congruence | discriminate].
Qed.

Lemma join_split (sep : codepoint) (s : pystr) :
  Config.join sep (Config.split sep s) = s.
Proof.
  induction s as [|c s IH]; simpl; [reflexivity|].
  pose proof (split_not_nil sep s) as Hne.
  destruct (N.eqb_spec c sep) as [->|Hc].
  - destruct (Config.split sep s) as [|p ps]; [congruence|].
    simpl in *. now rewrite IH.
  - destruct (Config.split sep s) as [|p ps]; [congruence|].
    destruct ps as [|q ps]; simpl in *; now rewrite <- IH.
Qed.

Lemma split_pieces (sep : codepoint) (s : pystr) :
  Forall (fun p => ~ In sep p) (Config.split sep s).
Proof.
  induction s as [|c s IH]; simpl.
  - constructor; [intros []|constructor].
  - destruct (N.eqb_spec c sep) as [->|Hc].
    + constructor; [intros []|exact IH].
    + destruct (Config.split sep s) as [|p ps]; [constructor|].
      * intros [H|[]]. congruence.
      * constructor.
      * inversion IH as [|? ? Hp Hps]; subst. constructor; [|exact Hps].
        intros [H|H]; [congruence | contradiction].
Qed.

Lemma split_length (sep : codepoint) (s : pystr) :
  List.length (Config.split sep s)
  = S (List.length (filter (N.eqb sep) s)).
Proof.
  induction s as [|c s IH]; simpl; [reflexivity|].
  pose proof (split_not_nil sep s) as Hne.
  rewrite (N.eqb_sym sep c).
  destruct (c =? sep)%N; simpl; [now rewrite IH|].
  destruct (Config.split sep s) as [|p ps]; [congruence|]. exact IH.
Qed.

(** ** Reading the configuration *)

(** X16: the IRC configuration can be read exactly when the six variables it
    indexes are set and the port is an integer; it then holds their
    values, the channels split at the semicolons, the password or [None],
    and [ssl] as [True] as soon as the variable is set, whatever its
    value.  With a variable missing the call fails. *)
Theorem irc_config_complete (py_int : pystr -> result Z)
        (env : Config.environ) :
  (forall k,
      In k Config.required ->
      lookup k env = None ->
      exists x, Config.get_config py_int env (u "irc") = Raise x) /\
  (forall channel_list hostname port_s port nickname username realname,
      lookup "PUMP19_IRC_CHANNELS" env = Some channel_list ->
      lookup "PUMP19_IRC_HOSTNAME" env = Some hostname ->
      lookup "PUMP19_IRC_PORT" env = Some port_s ->
      py_int port_s = Ok port ->
      lookup "PUMP19_IRC_NICKNAME" env = Some nickname ->
      lookup "PUMP19_IRC_USERNAME" env = Some username ->
      lookup "PUMP19_IRC_REALNAME" env = Some realname ->
      Config.get_config py_int env (u "irc")
      = Ok (VDict
              [(u "hostname", VStr hostname);
               (u "port", VInt port);
               (u "ssl",
                VBool match lookup "PUMP19_IRC_SSL" env with
                      | Some _ => true
                      | None => false
                      end);
               (u "password",
                match lookup "PUMP19_IRC_PASSWORD" env with
                | Some v => VStr v
                | None => VNone
                end);
               (u "nickname", VStr nickname);
               (u "username", VStr username);
               (u "realname", VStr realname);
               (u "channels",
                VList (map VStr (Config.split Config.semicolon channel_list)))])).
Proof.
  split.
  - intros k Hin Hk.
    change (Config.get_config py_int env (u "irc"))
      with (Config.get_irc_config py_int env).
    unfold Config.get_irc_config, Config.bindr, Config.env_item.
    unfold Config.required in Hin. simpl in Hin.
    destruct (lookup "PUMP19_IRC_CHANNELS" env) eqn:E1; [|eauto].
    destruct (lookup "PUMP19_IRC_HOSTNAME" env) eqn:E2; [|eauto].
    destruct (lookup "PUMP19_IRC_PORT" env) eqn:E3; [|eauto].
    destruct (py_int _); [|eauto].
    destruct (lookup "PUMP19_IRC_NICKNAME" env) eqn:E4; [|eauto].
    destruct (lookup "PUMP19_IRC_USERNAME" env) eqn:E5; [|eauto].
    destruct (lookup "PUMP19_IRC_REALNAME" env) eqn:E6; [|eauto].
    repeat (destruct Hin as [<-|Hin]; [congruence|]). contradiction.
  - intros channel_list hostname port_s port nickname username realname
           H1 H2 H3 H4 H5 H6 H7.
    change (Config.get_config py_int env (u "irc"))
      with (Config.get_irc_config py_int env).
    unfold Config.get_irc_config, Config.bindr, Config.env_item,
      Config.env_has, Config.env_get.
    rewrite H1, H2, H3, H4, H5, H6, H7.
    destruct (lookup "PUMP19_IRC_SSL" env); reflexivity.
Qed.

(** X17: the channels of a configuration that could be read, joined with
    semicolons, are the variable again; no channel contains a semicolon,
    and there is one more channel than there are semicolons (so an empty
    variable gives one empty channel). *)
Theorem irc_channels_round_trip (py_int : pystr -> result Z)
        (env : Config.environ) (cfg : pyval) :
  Config.get_config py_int env (u "irc") = Ok cfg ->
  exists channel_list channels,
    lookup "PUMP19_IRC_CHANNELS" env = Some channel_list /\
    getitem cfg (u "channels") = Ok (VList (map VStr channels)) /\
    Config.join Config.semicolon channels = channel_list /\
    Forall (fun p => ~ In Config.semicolon p) channels /\
    List.length channels
    = S (List.length (filter (N.eqb Config.semicolon) channel_list)).
Proof.
  change (Config.get_config py_int env (u "irc"))
    with (Config.get_irc_config py_int env).
  unfold Config.get_irc_config, Config.bindr, Config.env_item.
  destruct (lookup "PUMP19_IRC_CHANNELS" env) as [channel_list|]; [|discriminate].
  destruct (lookup "PUMP19_IRC_HOSTNAME" env); [|discriminate].
  destruct (lookup "PUMP19_IRC_PORT" env); [|discriminate].
  destruct (py_int _); [|discriminate].
  destruct (lookup "PUMP19_IRC_NICKNAME" env); [|discriminate].
  destruct (lookup "PUMP19_IRC_USERNAME" env); [|discriminate].
  destruct (lookup "PUMP19_IRC_REALNAME" env); [|discriminate].
  intros H. injection H as <-.
  exists channel_list, (Config.split Config.semicolon channel_list).
  split; [reflexivity|]. split; [reflexivity|].
  split; [apply join_split|]. split; [apply split_pieces | apply split_length].
Qed.

Lemma irc_channels_round_trip_witness :
  exists channel_list channels,
    lookup "PUMP19_IRC_CHANNELS" Config.demo_environ = Some channel_list /\
    getitem
      (VDict
         [(u "hostname", VStr (u "irc.example.net")); (u "port", VInt 6697);
          (u "ssl", VBool true); (u "password", VNone);
          (u "nickname", VStr (u "pump19")); (u "username", VStr (u "pump"));
          (u "realname", VStr (u "Pump19"));
          (u "channels", VList [VStr (u "#lrr"); VStr (u "#pump19")])])
      (u "channels") = Ok (VList (map VStr channels)) /\
    Config.join Config.semicolon channels = channel_list /\
    Forall (fun p => ~ In Config.semicolon p) channels /\
    List.length channels
    = S (List.length (filter (N.eqb Config.semicolon) channel_list)).
Proof.
  exact (irc_channels_round_trip Config.digits_int Config.demo_environ _ eq_refl).
Defined.

(** ** Start-up *)

(** X18: when the IRC configuration cannot be read, [main] fails before any
    [CommandHandler] exists: no route is registered and the limiter is
    left as it was.  Otherwise the handler it builds answers to the
    characters of [PUMP19_CMD_PREFIX] ("!" when unset), its routes are
    added to the list, and the limiter runs on the client's loop; with an
    empty [PUMP19_CMD_PREFIX] no message is a command. *)
Theorem main_setup_wiring (py_int : pystr -> result Z)
        (environ : Config.environ)
        (Protocol : pyval -> result (client * nat)) (e : env) (st : store) :
  (forall x,
      Config.get_config py_int environ (u "irc") = Raise x ->
      main_setup py_int environ Protocol e st
      = (Raise x, traced st [LogInfo "pump19" (u "Pump19 started.")])) /\
  (forall cfg cl loop,
      Config.get_config py_int environ (u "irc") = Ok cfg ->
      Protocol cfg = Ok (cl, loop) ->
      let self := new_instance cl (Some loop) (configured_prefix environ)
                               (lookup "PUMP19_CMD_OVERRIDE" environ) in
      let st' := snd (main_setup py_int environ Protocol e st) in
      fst (main_setup py_int environ Protocol e st) = Ok self /\
      routes st' = routes st ++ table self /\
      rate_limited_loop st' = Some loop /\
      (forall c, wrappers st' c = wrappers st c) /\
      (lookup "PUMP19_CMD_PREFIX" environ = Some [] ->
       forall message, is_command self message = false)).
Proof.
  split.
  - intros x H. unfold main_setup, bind, emit, lift. now rewrite H.
  - intros cfg cl loop Hc Hp self st'.
    assert (Hm : main_setup py_int environ Protocol e st
                 = init cl (Some loop) (configured_prefix environ)
                        (lookup "PUMP19_CMD_OVERRIDE" environ) e
                        (traced st [LogInfo "pump19" (u "Pump19 started.")])).
    { unfold main_setup, bind, emit, lift. rewrite Hc, Hp.
      change (Config.get_config py_int environ (u "cmd"))
        with (Config.get_cmd_config environ).
      unfold Config.get_cmd_config, Config.env_get, configured_prefix.
      destruct (lookup "PUMP19_CMD_PREFIX" environ);
        destruct (lookup "PUMP19_CMD_OVERRIDE" environ); reflexivity. }
    unfold st'. rewrite Hm, init_store. cbn [fst snd routes rate_limited_loop
                                             wrappers traced].
    repeat split.
    intros He message. unfold is_command, self, configured_prefix.
    rewrite He. cbn [new_instance prefix]. unfold startswith.
    destruct message; reflexivity.
Qed.

Lemma main_setup_wiring_witness :
  routes (snd (main_setup Config.digits_int Config.demo_environ demo_protocol
                          (demo_env 0) class_store))
  = routes class_store ++ table demo_self /\
  rate_limited_loop
    (snd (main_setup Config.digits_int Config.demo_environ demo_protocol
                     (demo_env 0) class_store)) = Some 0%nat.
Proof.
  pose proof (proj2 (main_setup_wiring Config.digits_int Config.demo_environ
                       demo_protocol (demo_env 0) class_store)
                _ demo_client 0%nat eq_refl eq_refl) as H.
  exact (conj (proj1 (proj2 H)) (proj1 (proj2 (proj2 H)))).
Defined.

(** * database/__init__.py *)

Lemma get_engine_cached (w : Database.world) (st : Database.state)
      (eng : Database.engine) :
  Database.ENGINE st = Some eng ->
  Database.get_engine w st = (Ok eng, st).
Proof. intros H. unfold Database.get_engine. now rewrite H. Qed.

Lemma get_engine_times_cached (n : nat) (w : Database.world)
      (st : Database.state) (eng : Database.engine) :
  Database.ENGINE st = Some eng ->
  Database.get_engine_times n w st = (Ok eng, st).
Proof.
  intros H. induction n as [|n IH]; simpl.
  - now apply get_engine_cached.
  - now rewrite (get_engine_cached w st eng H).
Qed.

(** X19: once an engine has been created, every later [get_engine] returns
    that same engine and creates nothing: however many calls follow the
    first, the log line and the creation appear once, for the database
    named by the path without its leading slash, with a pool of 1 to 5. *)
Theorem engine_created_once (n : nat) (w : Database.world)
        (eng : Database.engine) :
  Database.aiopg_create_engine w 0 = Ok eng ->
  let db := Database.DATABASE w in
  Database.get_engine_times n w Database.initial
  = (Ok eng,
     {| Database.ENGINE := Some eng;
        Database.events :=
          [Database.Info
             (u "Creating engine for database " ++ tl (Database.path db)
                ++ u " on " ++ str_opt (Database.hostname db) ++ u ".");
           Database.CreateEngine (Database.hostname db) (Database.port db)
                                 (tl (Database.path db))
                                 (Database.username db)
                                 (Database.password db) 1 5] |}).
Proof.
  intros H db.
  assert (H1 : Database.get_engine w Database.initial
               = (Ok eng,
                  {| Database.ENGINE := Some eng;
                     Database.events :=
                       [Database.Info
                          (u "Creating engine for database "
                             ++ tl (Database.path db) ++ u " on "
                             ++ str_opt (Database.hostname db) ++ u ".");
                        Database.CreateEngine
                          (Database.hostname db) (Database.port db)
                          (tl (Database.path db)) (Database.username db)
                          (Database.password db) 1 5] |})).
  { unfold Database.get_engine, Database.create_engine. simpl. now rewrite H. }
  destruct n as [|n]; simpl; [exact H1|].
  rewrite H1. cbn [snd]. apply get_engine_times_cached. reflexivity.
Qed.

Lemma engine_created_once_witness :
  Database.get_engine_times 3 Database.ready_world Database.initial
  = (Ok 7%nat,
     {| Database.ENGINE := Some 7%nat;
        Database.events :=
          [Database.Info
             (u "Creating engine for database pump19 on db.example.net.");
           Database.CreateEngine (Some (u "db.example.net")) (Some 5432%Z)
                                 (u "pump19") (Some (u "pump")) None 1 5] |}).
Proof.
  exact (engine_created_once 3 Database.ready_world 7%nat eq_refl).
Defined.

(** X20: a creation that fails leaves no engine behind: the exception
    reaches the caller, and the next [get_engine] asks for a new engine
    instead of returning a broken one. *)
Theorem engine_retry_after_failure (w : Database.world) (st : Database.state)
        (x : exn) :
  Database.ENGINE st = None ->
  Database.aiopg_create_engine w
    (List.length (filter Database.is_create (Database.events st))) = Raise x ->
  let st' := snd (Database.get_engine w st) in
  fst (Database.get_engine w st) = Raise x /\
  Database.ENGINE st' = None /\
  List.length (filter Database.is_create (Database.events st'))
  = S (List.length (filter Database.is_create (Database.events st))) /\
  fst (Database.get_engine w st')
  = Database.aiopg_create_engine w
      (S (List.length (filter Database.is_create (Database.events st)))).
Proof.
  intros He Hx st'.
  assert (H1 : Database.get_engine w st
               = (Raise x, snd (Database.create_engine w st))).
  { unfold Database.get_engine. rewrite He.
    unfold Database.create_engine. cbn [fst snd]. now rewrite Hx. }
  assert (Hn : List.length (filter Database.is_create (Database.events st'))
               = S (List.length (filter Database.is_create (Database.events st)))).
  { unfold st'. rewrite H1. unfold Database.create_engine.
    cbn [snd Database.events]. rewrite filter_app, length_app. simpl. lia. }
  assert (He' : Database.ENGINE st' = None).
  { unfold st'. rewrite H1. unfold Database.create_engine. cbn. exact He. }
  split; [now rewrite H1|]. split; [exact He'|]. split; [exact Hn|].
  unfold Database.get_engine at 1. rewrite He'.
  unfold Database.create_engine. rewrite Hn.
  destruct (Database.aiopg_create_engine w (S _)); reflexivity.
Qed.

Lemma engine_retry_after_failure_witness :
  fst (Database.get_engine Database.demo_world Database.initial)
  = Raise (Failure "OperationalError") /\
  fst (Database.get_engine Database.demo_world
         (snd (Database.get_engine Database.demo_world Database.initial)))
  = Ok 7%nat.
Proof.
  pose proof (engine_retry_after_failure Database.demo_world Database.initial
                (Failure "OperationalError") eq_refl eq_refl) as H.
  exact (conj (proj1 H) (proj2 (proj2 (proj2 H)))).
Defined.

(** * Router and handlers together *)

Lemma fullmatch_keys (rt : runtime) (r : regex) (s : pystr) (m : groupdict) :
  fullmatch rt r s = Some m -> map fst m = group_names r.
Proof.
  unfold fullmatch. destruct (run rt r 0 s [] _) as [g|]; [|discriminate].
  intros H. injection H as <-. unfold groupdict_of.
  rewrite map_map. simpl. apply map_id.
Qed.

Lemma check_kwargs_keys (c : command) (m : groupdict) (e : env) (st : store) :
  forallb (fun n => existsb (fun q => String.eqb (fst q) n) (params c))
          (map fst m) = true ->
  check_kwargs c m e st = (Ok tt, st).
Proof.
  intros H. unfold check_kwargs.
  assert (Hm : forallb
                 (fun p => existsb (fun q => String.eqb (fst q) (fst p)) (params c))
                 m = true).
  { rewrite forallb_forall in *. intros p Hp. apply H.
    now apply in_map. }
  now rewrite Hm.
Qed.

(** X21: the keyword arguments the router takes from a pattern are always
    parameters of the method routed to: for the table as it is, no call
    fails on an unexpected keyword. *)
Theorem kwargs_accepted (rt : runtime) (self : instance) (s : pystr)
        (c : command) (m : groupdict) (e : env) (st : store) :
  get_route rt (table self) s = Some ((self, c), m) ->
  check_kwargs c m e st = (Ok tt, st).
Proof.
  intros H. apply get_route_matches in H. apply fullmatch_keys in H.
  apply check_kwargs_keys. rewrite H. destruct c; reflexivity.
Qed.

Lemma kwargs_accepted_witness :
  check_kwargs Roll [("count", None); ("sides", Some (u "6"))] (demo_env 100)
               demo_store
  = (Ok tt, demo_store).
Proof.
  exact (kwargs_accepted plain_rt demo_self (u "roll d6") Roll _ (demo_env 100)
           demo_store eq_refl).
Defined.

(** X22: the whole way of the two commands that ask nobody: with the routes
    of one instance, a prefix character in front and the gate open, [bingo]
    and [help] stamp their wrapper and send their one fixed line to the
    reply target. *)
Theorem static_commands_answer (self : instance) (nick target : pystr)
        (p : codepoint) (loop : nat) (e : env) (st : store) (c : command)
        (text line : pystr) :
  (c = Bingo /\ text = u "bingo" /\
   line = u "Check out https://pump19.eu/bingo for our interactive Trope Bingo cards.")
  \/
  (c = Help /\ (text = u "help" \/ text = ambulance) /\
   line = u "Pump19 is run by Twisted Pear. Check https://pump19.eu/commands for a list of supported commands.") ->
  routes st = table self ->
  In p (prefix self) ->
  rate_limited_loop st = Some loop ->
  (_spam_span (wrappers st c)
   < loop_time e loop - _spam_last (wrappers st c))%Q ->
  handle_privmsg self nick target (p :: text) e st
  = (Ok tt,
     traced (stamped st c (loop_time e loop))
       [got_command text nick;
        Privmsg (client_id (client_of self)) (reply_target self nick target)
                line]).
Proof.
  intros Hc Hr Hp Hl Hgt.
  assert (Hcmd : negb (startswith (p :: text) (prefix self))
                 || (List.length (p :: text) <? 2)%nat = false).
  { apply orb_false_iff. split.
    - apply negb_false_iff. simpl. apply existsb_exists.
      exists p. split; [exact Hp | apply N.eqb_refl].
    - destruct Hc as [(_ & -> & _) | (_ & [-> | ->] & _)]; reflexivity. }
  rewrite handle_privmsg_command by exact Hcmd. cbn [tl]. rewrite Hr.
  assert (Hroute : get_route (interp e) (table self) text
                   = Some ((self, c), [])).
  { rewrite table_routes.
    destruct Hc as [(-> & -> & _) | (-> & [-> | ->] & _)]; reflexivity. }
  rewrite Hroute. unfold handle_command. cbn [fst snd].
  rewrite wrapper_proceeds with (loop := loop); [|exact Hl|exact Hgt].
  destruct Hc as [(-> & _ & ->) | (-> & _ & ->)];
    unfold func, bingo_body, help_body, check_kwargs, privmsg, bind, emit, ret,
      traced, stamped;
    simpl; rewrite <- ?app_assoc; reflexivity.
Qed.

Lemma static_commands_answer_witness :
  handle_privmsg demo_self (u "ann") (u "pump19") (u "!bingo") (demo_env 100)
                 demo_store
  = (Ok tt,
     traced (stamped demo_store Bingo 100)
       [got_command (u "bingo") (u "ann");
        Privmsg 1 (u "ann")
          (u "Check out https://pump19.eu/bingo for our interactive Trope Bingo cards.")]).
Proof.
  refine (static_commands_answer demo_self (u "ann") (u "pump19") 33%N 0%nat
            (demo_env 100) demo_store Bingo (u "bingo") _ _ eq_refl _ eq_refl
            eq_refl).
  - left. repeat split.
  - left. reflexivity.
Defined.

(** * The help pattern under [fullmatch] *)

Lemma get_route_table_inv (rt : runtime) (self : instance) (s : pystr)
      (cb : bound_method) (m : groupdict) :
  get_route rt (table self) s = Some (cb, m) ->
  exists c, cb = (self, c) /\ fullmatch rt (pattern_of c) s = Some m.
Proof.
  intros H. pose proof H as H'. rewrite table_routes in H'.
  destruct (get_route rt (map (fun kr => (snd kr, fst kr)) CMD_REGEX) s)
    as [[c m']|]; [|discriminate].
  injection H' as <- <-. exists c. split; [reflexivity|].
  now apply (get_route_matches rt self).
Qed.

(** The last character of a text belongs to whatever class its last
    piece is made of. *)
Lemma class_of_last (p : codepoint -> bool) (t x w : pystr) (a : codepoint) :
  w <> [] -> forallb p w = true -> t ++ [a] = x ++ w -> p a = true.
Proof.
  intros Hne Hall Heq.
  destruct (exists_last Hne) as (w' & b & ->).
  rewrite app_assoc in Heq. apply app_inj_tail in Heq as [_ ->].
  rewrite forallb_app in Hall. apply andb_prop in Hall as [_ Hb].
  simpl in Hb. now rewrite andb_true_r in Hb.
Qed.

(** A literal text ends in its own last character. *)
Lemma last_of_literal (t l : pystr) (a b : codepoint) :
  t ++ [a] = l ++ [b] -> a = b.
Proof. intros H. now apply app_inj_tail in H as [_ ->]. Qed.

Lemma emoji_class (rt : runtime) :
  in_class rt (Word false) ambulance_char = uni_word rt ambulance_char /\
  in_class rt (Digit false) ambulance_char = uni_digit rt ambulance_char /\
  ascii_word ambulance_char = false.
Proof. repeat split. Qed.

(** A text with something before the emoji at its end is matched by no
    pattern of the table, unless the tables of the interpreter take the
    emoji for a word character or a digit. *)
Lemma emoji_tail_unmatched (rt : runtime) (c : command) (t : pystr)
      (m : groupdict) :
  t <> [] ->
  uni_word rt ambulance_char = false ->
  uni_digit rt ambulance_char = false ->
  fullmatch rt (pattern_of c) (t ++ [ambulance_char]) = Some m -> False.
Proof.
  intros Hne Hw Hd H.
  destruct (emoji_class rt) as (Ew & Ed & Ea).
  assert (Hlit : forall l b, t ++ [ambulance_char] = l ++ [b] ->
                             b <> ambulance_char -> False).
  { intros l b Heq Hb. apply last_of_literal in Heq. congruence. }
  destruct c; cbn [pattern_of] in H.
  - apply exact_fullmatch in H as [H _].
    now apply (Hlit (u "vo") 100%N H).
  - apply exact_fullmatch in H as [H _].
    now apply (Hlit (u "cli") 112%N H).
  - apply lrrmc_fullmatch in H.
    destruct H as [[[H | H] _] | (w & Hwn & Hall & [H | H] & _)].
    + now apply (Hlit (u "lrrm") 99%N H).
    + now apply (Hlit [9935%N] 65039%N H).
    + apply (class_of_last _ _ _ _ _ Hwn Hall) in H. congruence.
    + rewrite app_assoc in H.
      apply (class_of_last _ _ _ _ _ Hwn Hall) in H. congruence.
  - apply lastfm_fullmatch in H.
    destruct H as (w & Hwn & Hall & [H | H] & _);
      rewrite ?app_assoc in H;
      apply (class_of_last _ _ _ _ _ Hwn Hall) in H; congruence.
  - apply roll_fullmatch in H.
    destruct H as (head & Hh & [[H _] | [(ds & [Hdn Hall] & H & _)
                                       | (n & ds & _ & [Hdn Hall] & H & _)]]).
    + destruct Hh as [-> | ->].
      * now apply (Hlit (u "rol") 108%N H).
      * now apply (Hlit [] 127922%N H).
    + rewrite app_assoc in H.
      apply (class_of_last _ _ _ _ _ Hdn Hall) in H. congruence.
    + rewrite !app_assoc in H.
      apply (class_of_last _ _ _ _ _ Hdn Hall) in H. congruence.
  - apply exact_fullmatch in H as [H _].
    now apply (Hlit (u "bing") 111%N H).
  - assert (H' : fullmatch rt re_help (t ++ [ambulance_char]) <> None)
      by congruence.
    apply help_fullmatch in H'. destruct H' as [H' | H'].
    + now apply (Hlit (u "hel") 112%N H').
    + change ambulance with ([] ++ [ambulance_char]) in H'.
      apply app_inj_tail in H' as [-> _]. congruence.
Qed.

(** C9, as amended: [get_route] matches with [fullmatch], so the pattern
    of [help] matches exactly the two texts "help" and the ambulance
    emoji, and these are the only commands routed to the help handler.  A
    longer text that starts with "help" matches no route.  A longer text
    that ends in the emoji is never routed to the help handler, and it
    matches no route at all when the tables of the interpreter take the
    emoji neither for a word character nor for a digit. *)
Theorem help_pattern_exact (rt : runtime) (self : instance) (s : pystr) :
  (fullmatch rt re_help s <> None <-> s = u "help" \/ s = ambulance) /\
  (get_route rt (table self) s = Some ((self, Help), []) <->
   s = u "help" \/ s = ambulance) /\
  (forall t, t <> [] -> get_route rt (table self) (u "help" ++ t) = None) /\
  (forall t cb m,
      t <> [] ->
      get_route rt (table self) (t ++ ambulance) = Some (cb, m) ->
      snd cb <> Help) /\
  (forall t,
      t <> [] ->
      uni_word rt ambulance_char = false ->
      uni_digit rt ambulance_char = false ->
      get_route rt (table self) (t ++ ambulance) = None).
Proof.
  destruct (help_route_exact rt self s) as [H1 H2].
  split; [exact H1|]. split; [exact H2|]. split; [|split].
  - intros t Hne.
    destruct (get_route rt (table self) (u "help" ++ t)) as [[cb m]|] eqn:E;
      [exfalso | reflexivity].
    apply get_route_table_inv in E. destruct E as (c & _ & Hm).
    assert (Hh : head_of (u "help" ++ t) = Some c).
    { apply (matches_head rt). unfold matches. now rewrite Hm. }
    assert (Hc : c = Help) by (cbv in Hh; congruence).
    subst c. cbn [pattern_of] in Hm.
    assert (Hm' : fullmatch rt re_help (u "help" ++ t) <> None) by congruence.
    apply help_fullmatch in Hm'. destruct Hm' as [Hm' | Hm'].
    + rewrite <- (app_nil_r (u "help")) in Hm' at 2.
      apply app_inv_head in Hm'. contradiction.
    + discriminate Hm'.
  - intros t cb m Hne E Hc.
    apply get_route_table_inv in E. destruct E as (c & -> & Hm).
    simpl in Hc. subst c. cbn [pattern_of] in Hm.
    assert (Hm' : fullmatch rt re_help (t ++ ambulance) <> None) by congruence.
    apply help_fullmatch in Hm'. destruct Hm' as [Hm' | Hm'].
    + change (u "help") with (u "hel" ++ [112%N]) in Hm'.
      unfold ambulance in Hm'. apply last_of_literal in Hm'. discriminate.
    + change ambulance with ([] ++ ambulance) in Hm' at 2.
      apply app_inv_tail in Hm'. contradiction.
  - intros t Hne Hw Hd.
    destruct (get_route rt (table self) (t ++ ambulance)) as [[cb m]|] eqn:E;
      [exfalso | reflexivity].
    apply get_route_table_inv in E. destruct E as (c & _ & Hm).
    exact (emoji_tail_unmatched rt c t m Hne Hw Hd Hm).
Qed.
